(** * questionnaire: conditional question resolution and back navigation

    A shallow embedding of [questionnaire/__init__.py].  Python objects
    become records, the two [OrderedDict]s become association lists kept in
    insertion order, raised exceptions become the [Exc] outcome of a small
    error monad, and the terminal widget (the [pick] package's [Picker]) is
    replaced by a script of user responses consumed from left to right. *)

From Stdlib Require Import List String Ascii ZArith Bool Lia Permutation.
Import ListNotations.

Local Open Scope string_scope.
Local Open Scope Z_scope.

(** ** Outcomes *)

(** The exceptions the module can raise.  [AssertionError] carries the
    message of the failed [assert]. *)
Inductive exn : Type :=
| KeyError (key : string)
| TypeError
| ValueError
| AttributeError
| AssertionError (msg : string).

(** Outcome of running a piece of the program: a returned value, a raised
    exception, or [Wait] when the program sits in the picker and the script
    holds no (usable) response for it. *)
Inductive res (A : Type) : Type :=
| Ret (a : A)
| Exc (e : exn)
| Wait.

Arguments Ret {A} a.
Arguments Exc {A} e.
Arguments Wait {A}.

Definition bind {A B : Type} (m : res A) (k : A -> res B) : res B :=
  match m with
  | Ret a => k a
  | Exc e => Exc e
  | Wait => Wait
  end.

Declare Scope res_scope.
Delimit Scope res_scope with res.
Notation "'do' x <- m ; k" := (bind m (fun x => k))
  (at level 10, x pattern, m at level 100, k at level 200) : res_scope.
Local Open Scope res_scope.

(** [assert cond, msg] *)
Definition assert (cond : bool) (msg : string) : res unit :=
  if cond then Ret tt else Exc (AssertionError msg).

(** ** Python values

    The answers stored in [choices] are [None] (a tentative entry written on
    back navigation), a string (single select) or a list of strings
    (multiple select); condition values are compared against them.  [VBool]
    is there for what operators return. *)
Inductive value : Type :=
| VNone
| VBool (b : bool)
| VStr (s : string)
| VList (l : list string).

(** Truth value of an object, as tested by [if] and [not]. *)
Definition truthy (v : value) : bool :=
  match v with
  | VNone => false
  | VBool b => b
  | VStr s => negb (s =? "")%string
  | VList l => match l with [] => false | _ :: _ => true end
  end.

Definition list_eqb (l1 l2 : list string) : bool :=
  if list_eq_dec string_dec l1 l2 then true else false.

(** [x == y] *)
Definition py_eq (x y : value) : bool :=
  match x, y with
  | VNone, VNone => true
  | VBool a, VBool b => Bool.eqb a b
  | VStr a, VStr b => (a =? b)%string
  | VList a, VList b => list_eqb a b
  | _, _ => false
  end.

(** Lexicographic [<=] of two lists of strings. *)
Fixpoint list_leb (l1 l2 : list string) : bool :=
  match l1, l2 with
  | [], _ => true
  | _ :: _, [] => false
  | a :: l1', b :: l2' =>
      if (a =? b)%string then list_leb l1' l2' else String.leb a b
  end.

(** [x <= y]; ordering two objects of different types, or two [None]s,
    raises [TypeError]. *)
Definition py_le (x y : value) : res value :=
  match x, y with
  | VBool a, VBool b => Ret (VBool (implb a b))
  | VStr a, VStr b => Ret (VBool (String.leb a b))
  | VList a, VList b => Ret (VBool (list_leb a b))
  | _, _ => Exc TypeError
  end.

(** [x in y]: substring test on a string, membership on a list; [None] and
    booleans are not containers. *)
Definition py_in (x y : value) : res value :=
  match y with
  | VStr s =>
      match x with
      | VStr t =>
          Ret (VBool (match index 0 t s with Some _ => true | _ => false end))
      | _ => Exc TypeError
      end
  | VList l => Ret (VBool (existsb (fun e => py_eq (VStr e) x) l))
  | _ => Exc TypeError
  end.

Definition py_not (r : res value) : res value :=
  do v <- r; Ret (VBool (negb (truthy v))).

(** ** Condition *)

(** An element of a condition's [operators] list.  [OpSym] is a string.
    [OpFun] is a callable that [inspect.getargspec] can inspect, with the
    number of arguments it reports; [OpOpaque] is a callable on which
    [getargspec] raises (a builtin; any callable where [inspect] has no
    [getargspec] any more).  Both carry their behaviour when called with two
    arguments.  [OpObj] is some other hashable object and [OpUnhashable] an
    object that cannot be hashed, such as a list. *)
Inductive operator : Type :=
| OpSym (s : string)
| OpFun (n_args : nat) (f : value -> value -> res value)
| OpOpaque (f : value -> value -> res value)
| OpObj
| OpUnhashable.

(** [Condition._OPERATORS] *)
Definition _OPERATORS : list (string * (value -> value -> res value)) :=
  [ ("==", fun x y => Ret (VBool (py_eq x y)));
    ("!=", fun x y => Ret (VBool (negb (py_eq x y))));
    ("<=", py_le);
    (">=", fun x y => py_le y x);
    ("in", py_in);
    ("not in", fun x y => py_not (py_in x y)) ].

Fixpoint assoc {A : Type} (k : string) (d : list (string * A)) : option A :=
  match d with
  | [] => None
  | (k', a) :: d' => if (k' =? k)%string then Some a else assoc k d'
  end.

(** [key in d] *)
Definition mem {A : Type} (k : string) (d : list (string * A)) : bool :=
  match assoc k d with Some _ => true | None => false end.

(** [op in Condition._OPERATORS]: the test hashes [op] and raises
    [TypeError] on an object that cannot be hashed. *)
Definition in_OPERATORS (op : operator) : res bool :=
  match op with
  | OpSym s => Ret (mem s _OPERATORS)
  | OpUnhashable => Exc TypeError
  | _ => Ret false
  end.

(** What [Condition.get_operator(op)] evaluates to, applied to two
    arguments.  A recognised symbol is replaced by its table entry; anything
    else is called as it is, and calling a string or a plain object raises
    [TypeError]. *)
Definition get_operator (op : operator) (x y : value) : res value :=
  match op with
  | OpSym s =>
      match assoc s _OPERATORS with
      | Some f => f x y
      | None => Exc TypeError
      end
  | OpFun _ f => f x y
  | OpOpaque f => f x y
  | OpObj => Exc TypeError
  | OpUnhashable => Exc TypeError
  end.

(** [Condition.check_operator].  The membership test stands before the
    [try]; inside it [getargspec] raises on what it cannot inspect, and the
    bare [except] turns that into [False]. *)
Definition check_operator (op : operator) : res bool :=
  do known <- in_OPERATORS op;
  if known then Ret true
  else
    match op with
    | OpFun n_args _ => Ret (n_args =? 2)%nat
    | _ => Ret false
    end.

(** [all(Condition.check_operator(op) for op in operators)]: the operators
    are checked in order up to the first that fails. *)
Fixpoint all_check_operator (operators : list operator) : res bool :=
  match operators with
  | [] => Ret true
  | op :: operators' =>
      do ok <- check_operator op;
      if ok then all_check_operator operators' else Ret false
  end.

(** A property of a condition dict as the caller wrote it: a list, a sized
    object of another type (a tuple), or an object without [len()] (a
    number, [None]). *)
Inductive seq_obj (A : Type) : Type :=
| PyList (items : list A)
| PyTuple (items : list A)
| PyScalar.

Arguments PyList {A} items.
Arguments PyTuple {A} items.
Arguments PyScalar {A}.

Definition items {A : Type} (s : seq_obj A) : list A :=
  match s with
  | PyList l | PyTuple l => l
  | PyScalar => []
  end.

(** [type(var) == list] *)
Definition is_list {A : Type} (s : seq_obj A) : bool :=
  match s with PyList _ => true | _ => false end.

(** The number of items of a list or tuple. *)
Definition len {A : Type} (s : seq_obj A) : nat := List.length (items s).

(** [len(var)], [TypeError] on an object without length. *)
Definition py_len_of {A : Type} (s : seq_obj A) : res nat :=
  match s with
  | PyScalar => Exc TypeError
  | _ => Ret (len s)
  end.

(** The condition dict handed to [Question] and [Condition]; an absent
    entry is [None]. *)
Record cond_dict : Type := {
  d_keys : option (seq_obj string);
  d_vals : option (seq_obj value);
  d_operators : option (seq_obj operator)
}.

(** [condition = {}] *)
Definition empty_dict : cond_dict :=
  {| d_keys := None; d_vals := None; d_operators := None |}.

(** A constructed [Condition]; all three properties passed the list check. *)
Record Condition : Type := {
  _keys : list string;
  _vals : list value;
  _operators : list operator
}.

(** [condition[name]] *)
Definition getitem {A : Type} (name : string) (entry : option A) : res A :=
  match entry with
  | Some a => Ret a
  | None => Exc (KeyError name)
  end.

Definition msg_lists : string := "All condition properties must be lists".
Definition msg_length : string :=
  "All condition properties must have the same length".
Definition msg_operators : string := "Condition has invalid operator(s)".

(** [Condition.__init__] *)
Definition Condition_init (condition : cond_dict) : res Condition :=
  do keys <- getitem "keys" (d_keys condition);
  do vals <- getitem "vals" (d_vals condition);
  do operators <-
    match d_operators condition with
    | Some ops => Ret ops
    | None => do n <- py_len_of keys; Ret (PyList (repeat (OpSym "==") n))
    end;
  do _ <- assert (is_list keys && is_list vals && is_list operators) msg_lists;
  do _ <- assert ((len keys =? len keys)%nat && (len vals =? len keys)%nat
                  && (len operators =? len keys)%nat) msg_length;
  do valid <- all_check_operator (items operators);
  do _ <- assert valid msg_operators;
  Ret {| _keys := items keys; _vals := items vals;
         _operators := items operators |}.

(** ** Question *)

Record Question : Type := {
  _key : string;
  _options : list string;
  _multiple : bool;
  _condition : option Condition
}.

(** [Question.__init__]: the [Condition] is built only when the dict holds
    both ['keys'] and ['vals']. *)
Definition Question_init (key : string) (options : list string)
    (multiple : bool) (condition : cond_dict) : res Question :=
  do cond <-
    match d_keys condition, d_vals condition with
    | Some _, Some _ => do c <- Condition_init condition; Ret (Some c)
    | _, _ => Ret None
    end;
  Ret {| _key := key; _options := options; _multiple := multiple;
         _condition := cond |}.

(** ** Rendering of the choices made so far *)

Definition newline : string := String (ascii_of_nat 10) "".

Fixpoint join (sep : string) (l : list string) : string :=
  match l with
  | [] => ""
  | [x] => x
  | x :: l' => x ++ sep ++ join sep l'
  end.

Definition apostrophe : ascii := ascii_of_nat 39.
Definition double_quote : ascii := ascii_of_nat 34.
Definition backslash : ascii := ascii_of_nat 92.

Fixpoint has_char (c : ascii) (s : string) : bool :=
  match s with
  | EmptyString => false
  | String c' s' => Ascii.eqb c' c || has_char c s'
  end.

Definition hex_digit (n : nat) : ascii :=
  nth n (list_ascii_of_string "0123456789abcdef") "0"%char.

(** One character inside [repr]'s quotes: backslash, the quote in use, line
    break, carriage return and tab get their backslash form, any other
    control character its [\xNN] form. *)
Definition repr_char (quote c : ascii) : string :=
  let n := nat_of_ascii c in
  if Ascii.eqb c backslash then String backslash (String backslash "")
  else if Ascii.eqb c quote then String backslash (String quote "")
  else if (n =? 10)%nat then String backslash "n"
  else if (n =? 13)%nat then String backslash "r"
  else if (n =? 9)%nat then String backslash "t"
  else if (n <? 32)%nat || (n =? 127)%nat
  then String backslash
         (String "x" (String (hex_digit (n / 16))
                        (String (hex_digit (n mod 16)) "")))
  else String c "".

Fixpoint repr_body (quote : ascii) (s : string) : string :=
  match s with
  | EmptyString => ""
  | String c s' => repr_char quote c ++ repr_body quote s'
  end.

(** [repr] of a string: double quotes when the text holds an apostrophe and
    no double quote, single quotes otherwise.  Exact for text whose
    characters outside ASCII are printable ones. *)
Definition repr_str (s : string) : string :=
  let quote :=
    if has_char apostrophe s && negb (has_char double_quote s)
    then double_quote else apostrophe in
  String quote (repr_body quote s ++ String quote "").

(** [len] of a string held as UTF-8: the bytes that start a character. *)
Fixpoint py_len (s : string) : nat :=
  match s with
  | EmptyString => 0
  | String c s' =>
      let n := nat_of_ascii c in
      ((if (128 <=? n)%nat && (n <? 192)%nat then 0 else 1) + py_len s')%nat
  end.


(** [str(v)], as [format] renders a [{}] field. *)
Definition py_str (v : value) : string :=
  match v with
  | VNone => "None"
  | VBool true => "True"
  | VBool false => "False"
  | VStr s => s
  | VList l => "[" ++ join ", " (map repr_str l) ++ "]"
  end.

Fixpoint spaces (n : nat) : string :=
  match n with
  | O => ""
  | S n' => " " ++ spaces n'
  end.

(** Length of the longest key, [None] for no key at all:
    [len(max(keys, key=len))]. *)
Fixpoint max_len (keys : list string) : option nat :=
  match keys with
  | [] => None
  | k :: keys' =>
      match max_len keys' with
      | None => Some (py_len k)
      | Some m => Some (Nat.max (py_len k) m)
      end
  end.

(** ["{:>{}}".format(s, width)] *)
Definition rjust (s : string) (width : nat) : string :=
  spaces (width - py_len s) ++ s.

(** ** Questionnaire *)

Record Questionnaire : Type := {
  questions : list (string * list Question);
  choices : list (string * value)
}.

(** [Questionnaire.__init__] *)
Definition Questionnaire_init : Questionnaire :=
  {| questions := []; choices := [] |}.

Definition keys_of {A : Type} (d : list (string * A)) : list string :=
  map fst d.

(** [d[k] = v] on an ordered dict: an existing key keeps its place, a new
    one goes to the end. *)
Fixpoint setitem {A : Type} (k : string) (v : A) (d : list (string * A))
    : list (string * A) :=
  match d with
  | [] => [(k, v)]
  | (k', v') :: d' =>
      if (k' =? k)%string then (k, v) :: d' else (k', v') :: setitem k v d'
  end.

(** [d[k]] *)
Definition lookup {A : Type} (k : string) (d : list (string * A)) : res A :=
  match assoc k d with
  | Some a => Ret a
  | None => Exc (KeyError k)
  end.

(** [Questionnaire.show_choices]; [max] of an empty sequence raises
    [ValueError]. *)
Definition show_choices (self : Questionnaire) (s : string) : res string :=
  do padding <-
    match max_len (keys_of (questions self)) with
    | Some m => Ret (m + 5)%nat
    | None => Exc ValueError
    end;
  Ret (fold_left
         (fun s '(key, v) =>
            s ++ rjust key padding ++ " : " ++ py_str v ++ newline)
         (choices self) s).

(** [Questionnaire.go_back] *)
Definition go_back (n : Z) (self : Questionnaire) : Questionnaire :=
  let N := Z.max (Z.of_nat (List.length (choices self)) - n - 1) 0 in
  {| questions := questions self;
     choices := firstn (Z.to_nat N) (choices self) |}.

(** ** The picker *)

(** What the user ends a picker session with: the go-back key ([h] or the
    left arrow), or enter on the entry at [index]. *)
Inductive response : Type :=
| GoBack
| Choose (index : nat).

Definition script : Type := list response.

(** [Picker.start()] with the go-back handler registered: the handler's
    [(None, -1)], or [(options[index], index)].  An index outside the list
    is no response of the widget. *)
Definition picker_start (_options : list string) (r : response)
    : option (value * Z) :=
  match r with
  | GoBack => Some (VNone, -1)
  | Choose i =>
      match nth_error _options i with
      | Some o => Some (VStr o, Z.of_nat i)
      | None => None
      end
  end.

(** [Picker(options, ...)]: the widget's constructor refuses an empty
    option list. *)
Definition Picker (_options : list string) : res unit :=
  match _options with
  | [] => Exc ValueError
  | _ :: _ => Ret tt
  end.

(** [back_pick] *)
Definition back_pick (_options : list string) (title indicator : string)
    (s : script) : res ((value * Z) * script) :=
  do _ <- Picker _options;
  match s with
  | [] => Wait
  | r :: rest =>
      match picker_start _options r with
      | Some out => Ret (out, rest)
      | None => Wait
      end
  end.

(** [l.remove(x)]: drops the first occurrence, [ValueError] without one. *)
Fixpoint list_remove (x : string) (l : list string) : res (list string) :=
  match l with
  | [] => Exc ValueError
  | y :: l' =>
      if (y =? x)%string then Ret l'
      else do r <- list_remove x l'; Ret (y :: r)
  end.

(** The [while True] loop of [back_pick_multiple]; [_options] is the working
    pool, [options] the selections so far.  The text shown on each round,
    [title] followed by the selections so far, only goes to the widget. *)
Fixpoint pick_loop (_options options : list string)
    (title indicator ALL DONE : string) (s : script)
    : res ((value * Z) * script) :=
  match s with
  | [] => do _ <- Picker _options; Wait
  | r :: rest =>
      do _ <- Picker _options;
      match picker_start _options r with
      | None => Wait
      | Some (option, i) =>
          if i <? 0 then Ret ((VList options, i), rest)
          else if py_eq option (VStr ALL) then Ret ((VList [ALL], i), rest)
          else if py_eq option (VStr DONE) then Ret ((VList options, i), rest)
          else
            match option with
            | VStr o =>
                do pool <- list_remove o _options;
                pick_loop pool (options ++ [o]) title indicator ALL DONE rest
            | _ => Exc ValueError
            end
      end
  end.

(** [back_pick_multiple] *)
Definition back_pick_multiple (_options : list string)
    (title indicator ALL DONE : string) (s : script)
    : res ((value * Z) * script) :=
  pick_loop ([ALL] ++ _options ++ [DONE]) [] title indicator ALL DONE s.

(** ** Prompting, registration and the pass over the questions *)

Definition set_choice (key : string) (v : value) (self : Questionnaire)
    : Questionnaire :=
  {| questions := questions self; choices := setitem key v (choices self) |}.

(** The branch of [Questionnaire.prompt] taken when the user went back. *)
Definition rewind (key : string) (multiple : bool) (self : Questionnaire)
    : res Questionnaire :=
  if multiple then
    do partial <- lookup key (choices self);
    Ret (if truthy partial then go_back 0 self else go_back 1 self)
  else Ret (go_back 1 self).

(** [_pick = back_pick_multiple if multiple else back_pick] *)
Definition _pick (multiple : bool) (_options : list string)
    (title indicator : string) (s : script) : res ((value * Z) * script) :=
  if multiple
  then back_pick_multiple _options title indicator "all" "done..." s
  else back_pick _options title indicator s.

(** [Questionnaire.prompt] *)
Definition prompt (key : string) (options : list string) (prompt_ : string)
    (multiple : bool) (indicator : string) (self : Questionnaire)
    (s : script) : res (bool * Questionnaire * script) :=
  let prompt_ := if truthy (VStr prompt_) then prompt_ else key ++ ": " in
  do shown <- show_choices self "";
  do ((answer, i), rest) <- _pick multiple options
                                  (shown ++ newline ++ prompt_) indicator s;
  let self := set_choice key answer self in
  if i <? 0 then
    do self <- rewind key multiple self;
    Ret (false, self, rest)
  else Ret (true, self, rest).

(** [d.setdefault(key, []).append(question)] *)
Fixpoint setdefault_append (question : Question)
    (d : list (string * list Question)) : list (string * list Question) :=
  match d with
  | [] => [(_key question, [question])]
  | (k, variants) :: d' =>
      if (k =? _key question)%string
      then (k, (variants ++ [question])%list) :: d'
      else (k, variants) :: setdefault_append question d'
  end.

(** The objects a caller of the module gets to hold, with the methods their
    classes define. *)
Inductive object : Type :=
| ONone
| OCondition (c : Condition)
| OQuestion (q : Question)
| OQuestionnaire (self : Questionnaire).

Definition methods (o : object) : list string :=
  match o with
  | ONone => []
  | OCondition _ =>
      ["get_operator"; "check_operator"; "keys"; "vals"; "operators"]
  | OQuestion _ => ["key"; "options"; "multiple"; "condition"]
  | OQuestionnaire _ =>
      ["show_choices"; "go_back"; "prompt"; "add_question"; "which_question";
       "check_condition"; "run"; "ask_questions"]
  end.

(** Whether [o.name(...)] finds a method to call. *)
Definition supports (o : object) (name : string) : bool :=
  existsb (String.eqb name) (methods o).

(** [Questionnaire.add_question]; the method has no [return], so the call
    evaluates to [None]. *)
Definition add_question (question : Question) (self : Questionnaire)
    : Questionnaire * object :=
  ({| questions := setdefault_append question (questions self);
      choices := choices self |}, ONone).

(** [zip(keys, vals, operators)] *)
Fixpoint zip3 {A B C : Type} (la : list A) (lb : list B) (lc : list C)
    : list (A * B * C) :=
  match la, lb, lc with
  | a :: la', b :: lb', c :: lc' => (a, b, c) :: zip3 la' lb' lc'
  | _, _, _ => []
  end.

Fixpoint check_triples (triples : list (string * value * operator))
    (answers : list (string * value)) : res bool :=
  match triples with
  | [] => Ret true
  | (key, val, op) :: triples' =>
      do _ <- in_OPERATORS op;
      do answer <- lookup key answers;
      do r <- get_operator op val answer;
      if negb (truthy r) then Ret false else check_triples triples' answers
  end.

(** [Questionnaire.check_condition] *)
Definition check_condition (condition : option Condition)
    (self : Questionnaire) : res bool :=
  match condition with
  | None => Ret true
  | Some c =>
      check_triples (zip3 (_keys c) (_vals c) (_operators c)) (choices self)
  end.

Fixpoint first_satisfied (variants : list Question) (self : Questionnaire)
    : res (option Question) :=
  match variants with
  | [] => Ret None
  | question :: variants' =>
      do ok <- check_condition (_condition question) self;
      if ok then Ret (Some question) else first_satisfied variants' self
  end.

(** [Questionnaire.which_question] *)
Definition which_question (key : string) (self : Questionnaire)
    : res (option Question) :=
  do variants <- lookup key (questions self);
  first_satisfied variants self.

(** The [for] loop of [ask_questions] over the keys still to visit. *)
Fixpoint ask_keys (keys : list string) (self : Questionnaire) (s : script)
    : res (bool * Questionnaire * script) :=
  match keys with
  | [] => Ret (true, self, s)
  | key :: keys' =>
      do question <- which_question key self;
      match question with
      | Some q =>
          if negb (mem key (choices self)) then
            do (ok, self', rest) <- prompt key (_options q) ""
                                       (_multiple q) "=>" self s;
            if negb ok then Ret (false, self', rest)
            else ask_keys keys' self' rest
          else ask_keys keys' self s
      | None => ask_keys keys' self s
      end
  end.

(** [Questionnaire.ask_questions] *)
Definition ask_questions (self : Questionnaire) (s : script)
    : res (bool * Questionnaire * script) :=
  ask_keys (keys_of (questions self)) self s.

(** The [while True] loop of [run], unrolled at most [fuel] times. *)
Fixpoint run_passes (fuel : nat) (self : Questionnaire) (s : script)
    : res (list (string * value) * script) :=
  match fuel with
  | O => Wait
  | S fuel' =>
      do (ok, self', rest) <- ask_questions self s;
      if negb ok then run_passes fuel' self' rest
      else Ret (choices self', rest)
  end.

(** [Questionnaire.run].  A pass that ends on a back step has read at least
    one response, so no more than [length s + 1] passes can start. *)
Definition run (self : Questionnaire) (s : script)
    : res (list (string * value) * script) :=
  run_passes (S (List.length s))
             {| questions := questions self; choices := [] |} s.

(** ** What [Condition.__init__] asks of a condition dict *)

(** The operators the constructor works with: the dict's own, or one ["=="]
    per key. *)
Definition effective_operators (keys : seq_obj string)
    (ops : option (seq_obj operator)) : seq_obj operator :=
  match ops with
  | Some o => o
  | None => PyList (repeat (OpSym "==") (len keys))
  end.

Definition all_lists (keys : seq_obj string) (vals : seq_obj value)
    (ops : seq_obj operator) : bool :=
  is_list keys && is_list vals && is_list ops.

Definition same_length (keys : seq_obj string) (vals : seq_obj value)
    (ops : seq_obj operator) : bool :=
  (len vals =? len keys)%nat && (len ops =? len keys)%nat.

(** A symbol of the table, or a callable for which [getargspec] reports
    two arguments. *)
Definition accepted (op : operator) : bool :=
  match op with
  | OpSym s => mem s _OPERATORS
  | OpFun n_args _ => (n_args =? 2)%nat
  | _ => false
  end.

Definition operators_valid (ops : seq_obj operator) : bool :=
  forallb accepted (items ops).

Definition hashable (op : operator) : bool :=
  match op with OpUnhashable => false | _ => true end.

(** The object has a [len()]. *)
Definition sized {A : Type} (s : seq_obj A) : bool :=
  match s with PyScalar => false | _ => true end.

(** The dict is one on which the constructor raises no [TypeError]: keys
    with a length when the operators are to be supplied, and operators that
    can all be hashed. *)
Definition checkable (keys : seq_obj string)
    (ops : option (seq_obj operator)) : bool :=
  match ops with
  | Some o => forallb hashable (items o)
  | None => sized keys
  end.



(** ** The caller contract on conditions *)

Definition refers_within (seen : list string) (question : Question) : bool :=
  match _condition question with
  | None => true
  | Some c => forallb (fun k => existsb (String.eqb k) seen) (_keys c)
  end.

(** Every condition refers only to keys registered before its own key;
    [seen] holds the keys of the entries already passed. *)
Fixpoint refs_earlier (seen : list string)
    (registry : list (string * list Question)) : bool :=
  match registry with
  | [] => true
  | (k, variants) :: registry' =>
      forallb (refers_within seen) variants
      && refs_earlier (seen ++ [k])%list registry'
  end.

(** One evaluated triple of a condition holds: the answer is there and the
    operator returns something true. *)
Definition triple_holds (answers : list (string * value))
    (t : string * value * operator) : Prop :=
  let '(key, val, op) := t in
  exists answer r,
    assoc key answers = Some answer /\
    get_operator op val answer = Ret r /\ truthy r = true.

(** ** The example client's questionnaire *)

Definition eq_condition (keys : list string) (vals : list value)
    : option Condition :=
  Some {| _keys := keys; _vals := vals;
          _operators := repeat (OpSym "==") (List.length keys) |}.

Definition day_question : Question :=
  {| _key := "day"; _options := ["monday"; "friday"; "saturday"];
     _multiple := false; _condition := None |}.

Definition time_question : Question :=
  {| _key := "time"; _options := ["morning"; "night"];
     _multiple := false; _condition := None |}.

Definition activities_variants : list Question :=
  [ {| _key := "activities";
       _options := ["eat tacos de pastor"; "go to the cantina";
                     "do some programming"];
       _multiple := true;
       _condition := eq_condition ["time"] [VStr "night"] |};
    {| _key := "activities";
       _options := ["eat barbacoa"; "watch footy match"; "walk the dog"];
       _multiple := true;
       _condition := eq_condition ["day"; "time"]
                                   [VStr "saturday"; VStr "morning"] |};
    {| _key := "activities";
       _options := ["eat granola"; "get dressed"; "go to work"];
       _multiple := true;
       _condition := eq_condition ["time"] [VStr "morning"] |} ].

Definition activities_registry : list (string * list Question) :=
  [ ("day", [day_question]); ("time", [time_question]);
    ("activities", activities_variants) ].

Definition activities : Questionnaire :=
  {| questions := activities_registry; choices := [] |}.

Definition night_dict : cond_dict :=
  {| d_keys := Some (PyList ["time"]);
     d_vals := Some (PyList [VStr "night"]);
     d_operators := None |}.

Definition night_condition : Condition :=
  {| _keys := ["time"]; _vals := [VStr "night"]; _operators := [OpSym "=="] |}.

Definition saturday_morning : Questionnaire :=
  {| questions := activities_registry;
     choices := [("day", VStr "saturday"); ("time", VStr "morning")] |}.

Definition day_only : Questionnaire :=
  {| questions := activities_registry;
     choices := [("day", VStr "saturday")] |}.

Definition three_answers : Questionnaire :=
  {| questions := activities_registry;
     choices := [("day", VStr "friday"); ("time", VStr "night");
                 ("activities", VList ["go to the cantina"])] |}.

Definition answered : Questionnaire :=
  {| questions := activities_registry;
     choices := [("day", VStr "saturday"); ("time", VStr "morning");
                 ("activities", VList ["watch footy match"])] |}.

Definition saturday_morning_dict : cond_dict :=
  {| d_keys := Some (PyList ["day"; "time"]);
     d_vals := Some (PyList [VStr "saturday"; VStr "morning"]);
     d_operators := None |}.

Definition saturday_morning_condition : Condition :=
  {| _keys := ["day"; "time"];
     _vals := [VStr "saturday"; VStr "morning"];
     _operators := [OpSym "=="; OpSym "=="] |}.

(** The [activities] variants registered without the questions their
    conditions read. *)
Definition activities_alone : Questionnaire :=
  {| questions := [("activities", activities_variants)]; choices := [] |}.

(** ** Vocabulary of the statements *)

(** A variant whose condition evaluates to [False]. *)
Definition rejected (self : Questionnaire) (question : Question) : Prop :=
  check_condition (_condition question) self = Ret false.

(** The variants registered under a key, none for an unknown key. *)
Definition variants_of (key : string) (self : Questionnaire)
    : list Question :=
  match assoc key (questions self) with
  | Some variants => variants
  | None => []
  end.

(** What a picker session can put under a key asked with [question]: one
    of its options, or for a multiple question the marker list or a list of
    its options. *)
Definition selection_of (question : Question) (v : value) : Prop :=
  if _multiple question
  then exists picked,
         v = VList picked /\
         (picked = ["all"] \/ incl picked (_options question))
  else exists o, v = VStr o /\ In o (_options question).

(** The answer recorded under the key of a (key, value) pair equals the
    value. *)
Definition pair_equal (answers : list (string * value))
    (p : string * value) : Prop :=
  exists answer, assoc (fst p) answers = Some answer /\
                 py_eq (snd p) answer = true.

(** [which_question(key)] returns a question. *)
Definition resolves (key : string) (self : Questionnaire) : bool :=
  match which_question key self with
  | Ret (Some _) => true
  | _ => false
  end.

(** [for question in qs: self.add_question(question)] *)
Definition register_all (qs : list Question) (self : Questionnaire)
    : Questionnaire :=
  fold_left (fun self question => fst (add_question question self)) qs self.

(** The keys of [qs] in the order of their first occurrence. *)
Fixpoint first_keys (seen : list string) (qs : list Question) : list string :=
  match qs with
  | [] => []
  | q :: qs' =>
      if existsb (String.eqb (_key q)) seen then first_keys seen qs'
      else _key q :: first_keys (seen ++ [_key q])%list qs'
  end.

(** Every recorded answer is a selection from a variant registered under
    its key. *)
Definition answers_proper (registry : list (string * list Question))
    (answers : list (string * value)) : Prop :=
  Forall (fun entry =>
            exists variants q,
              assoc (fst entry) registry = Some variants /\
              In q variants /\ selection_of q (snd entry))
         answers.



(** The starts of the passes of a run: [restarts self s self' s'] when the
    loop of [run], standing before a pass in state [self] with the responses
    [s] to come, reaches the start of a pass in state [self'] with [s'] to
    come, through passes that each ended on a back step. *)
Inductive restarts : Questionnaire -> script -> Questionnaire -> script
                     -> Prop :=
| restarts_here (self : Questionnaire) (s : script) : restarts self s self s
| restarts_pass (self : Questionnaire) (s : script)
    (self1 : Questionnaire) (s1 : script)
    (self2 : Questionnaire) (s2 : script) :
    ask_questions self s = Ret (false, self1, s1) ->
    restarts self1 s1 self2 s2 ->
    restarts self s self2 s2.

(** A pass over [keys] from [self] prompts for nothing and ends in [self],
    whatever responses are to come. *)
Definition visited (keys : list string) (self : Questionnaire) : Prop :=
  forall s, ask_keys keys self s = Ret (true, self, s).

(** The loop body of a pass passes over [key]: no variant of it qualifies,
    or it has its answer. *)
Definition skipped (self : Questionnaire) (key : string) : Prop :=
  which_question key self = Ret None \/
  ((exists q, which_question key self = Ret (Some q)) /\
   mem key (choices self) = true).

(** A pass started in [self] asks [key] first: it prompts for nothing at
    the keys registered before [key], and at [key], which has no answer, it
    prompts with the variant [which_question] returns. *)
Definition asks_first (key : string) (self : Questionnaire) : Prop :=
  exists before variants after q,
    questions self = (before ++ (key, variants) :: after)%list /\
    visited (keys_of before) self /\
    mem key (choices self) = false /\
    which_question key self = Ret (Some q) /\
    (forall s,
        ask_questions self s =
        (do (ok, self', rest) <- prompt key (_options q) "" (_multiple q)
                                   "=>" self s;
         if negb ok then Ret (false, self', rest)
         else ask_keys (keys_of after) self' rest)).

(** Every recorded answer was asked for: with the answers before it, a pass
    asks its key first. *)
Definition asked_in_turn (registry : list (string * list Question))
    (answers : list (string * value)) : Prop :=
  forall earlier key v later,
    answers = (earlier ++ (key, v) :: later)%list ->
    asks_first key {| questions := registry; choices := earlier |}.

(** The positional and keyword arguments of a call. *)
Inductive argument : Type :=
| ArgStr (s : string)
| ArgList (l : list string)
| ArgDict (d : cond_dict)
| ArgQuestion (q : Question).

(** A call of [q.add_question] with positional and keyword arguments.  The
    arguments are bound to the one parameter [question] of the method:
    anything but one argument for it, by position or by name, is a
    [TypeError]; the body then calls [question.key()], which only a
    [Question] has. *)
Definition call_add_question (args : list argument)
    (kwargs : list (string * argument)) (self : Questionnaire)
    : res (Questionnaire * object) :=
  do question <-
    match args, kwargs with
    | [a], [] => Ret a
    | [], [(name, a)] =>
        if (name =? "question")%string then Ret a else Exc TypeError
    | _, _ => Exc TypeError
    end;
  match question with
  | ArgQuestion q => Ret (add_question q self)
  | _ => Exc AttributeError
  end.

(** * Properties *)

(** ** The error monad *)

Lemma bind_ret_inv {A B : Type} (m : res A) (k : A -> res B) (b : B) :
  bind m k = Ret b -> exists a, m = Ret a /\ k a = Ret b.
Proof.
  destruct m as [a| |]; simpl; intros H; try discriminate.
  exists a; split; trivial.
Qed.

Lemma assert_ret (cond : bool) (msg : string) :
  assert cond msg = Ret tt <-> cond = true.
Proof.
  unfold assert; destruct cond; split; intros H; congruence.
Qed.

(** ** Dictionaries *)

Lemma mem_false_assoc {A : Type} (k : string) (d : list (string * A)) :
  mem k d = false <-> assoc k d = None.
Proof.
  unfold mem; destruct (assoc k d); split; intros H; congruence.
Qed.

Lemma assoc_none_notin {A : Type} (k : string) (d : list (string * A)) :
  assoc k d = None <-> ~ In k (keys_of d).
Proof.
  induction d as [|[k' a] d IH]; simpl.
  - split; [intros _ []|trivial].
  - destruct (String.eqb_spec k' k) as [->|Hne].
    + split; [discriminate|intros H; exfalso; apply H; now left].
    + rewrite IH; split; intros H.
      * intros [E|I]; [congruence|contradiction].
      * intros I; apply H; now right.
Qed.

Lemma assoc_app_notin {A : Type} (k : string) (d e : list (string * A)) :
  ~ In k (keys_of e) -> assoc k (d ++ e)%list = assoc k d.
Proof.
  intros Hk; induction d as [|[k' a] d IH]; simpl.
  - now apply assoc_none_notin.
  - destruct (k' =? k)%string; trivial.
Qed.

Lemma assoc_app_some {A : Type} (k : string) (a : A)
    (d e : list (string * A)) :
  assoc k d = Some a -> assoc k (d ++ e)%list = Some a.
Proof.
  induction d as [|[k' a'] d IH]; simpl; [discriminate|].
  destruct (k' =? k)%string; auto.
Qed.

Lemma setitem_fresh {A : Type} (k : string) (v : A) (d : list (string * A)) :
  mem k d = false -> setitem k v d = (d ++ [(k, v)])%list.
Proof.
  rewrite mem_false_assoc.
  induction d as [|[k' a] d IH]; simpl; trivial.
  destruct (k' =? k)%string; [discriminate|].
  intros H; now rewrite IH.
Qed.

Lemma assoc_setitem {A : Type} (k : string) (v : A) (d : list (string * A)) :
  assoc k (setitem k v d) = Some v.
Proof.
  induction d as [|[k' a] d IH]; simpl.
  - now rewrite String.eqb_refl.
  - destruct (String.eqb_spec k' k) as [->|Hne]; simpl.
    + now rewrite String.eqb_refl.
    + destruct (String.eqb_spec k' k); [contradiction|exact IH].
Qed.

Lemma keys_setitem_present {A : Type} (k : string) (v : A)
    (d : list (string * A)) :
  mem k d = true -> keys_of (setitem k v d) = keys_of d.
Proof.
  unfold mem.
  induction d as [|[k' a] d IH]; simpl; [discriminate|].
  destruct (String.eqb_spec k' k) as [->|Hne]; simpl; trivial.
  intros H; now rewrite IH.
Qed.

(** ** Condition construction *)

Lemma check_operator_hashable (op : operator) :
  hashable op = true -> check_operator op = Ret (accepted op).
Proof.
  destruct op as [s|n f|f| |]; unfold check_operator; simpl; trivial;
    [|discriminate].
  intros _; now destruct (mem s _OPERATORS).
Qed.

Lemma all_check_operator_hashable (ops : list operator) :
  forallb hashable ops = true ->
  all_check_operator ops = Ret (forallb accepted ops).
Proof.
  induction ops as [|op ops IH]; simpl; trivial.
  intros H; apply andb_prop in H as [Hop Hops].
  rewrite (check_operator_hashable op Hop); simpl.
  destruct (accepted op); simpl; auto.
Qed.

Lemma check_operator_ret (op : operator) (b : bool) :
  check_operator op = Ret b -> b = accepted op /\ hashable op = true.
Proof.
  destruct op as [s|n f|f| |]; unfold check_operator; simpl;
    try (intros [= <-]; auto); try discriminate.
  destruct (mem s _OPERATORS); intros [= <-]; auto.
Qed.

Lemma all_check_operator_ret (ops : list operator) (b : bool) :
  all_check_operator ops = Ret b -> b = forallb accepted ops.
Proof.
  induction ops as [|op ops IH]; simpl; [now intros [= <-]|].
  intros H; apply bind_ret_inv in H as (ok & Hop & H).
  apply check_operator_ret in Hop as [-> _].
  destruct (accepted op); simpl; [auto|now injection H as <-].
Qed.

(** The operator check raises only [TypeError], on the first operator that
    cannot be hashed, when those before it are accepted. *)
Lemma all_check_operator_exc (ops : list operator) (e : exn) :
  all_check_operator ops = Exc e <->
  e = TypeError /\
  exists before after,
    ops = (before ++ OpUnhashable :: after)%list /\
    forallb accepted before = true.
Proof.
  induction ops as [|op ops IH]; simpl.
  - split; [discriminate|].
    intros (_ & before & after & E & _); destruct before; discriminate.
  - destruct (hashable op) eqn:Hh.
    + rewrite (check_operator_hashable op Hh); simpl.
      destruct (accepted op) eqn:Ha; simpl.
      * rewrite IH; split.
        -- intros (-> & before & after & -> & Hb); split; trivial.
           exists (op :: before), after; simpl; now rewrite Ha.
        -- intros (-> & before & after & E & Hb); split; trivial.
           destruct before as [|op' before]; simpl in E;
             injection E as -> ->; [discriminate Hh|].
           simpl in Hb; apply andb_prop in Hb as [_ Hb]; eauto.
      * split; [discriminate|].
        intros (_ & before & after & E & Hb).
        destruct before as [|op' before]; simpl in E; injection E as -> ->;
          [discriminate Hh|].
        simpl in Hb; rewrite Ha in Hb; discriminate.
    + destruct op; try discriminate; simpl.
      split.
      * intros [= <-]; split; trivial; now exists [], ops.
      * now intros [-> _].
Qed.

Lemma all_check_operator_no_wait (ops : list operator) :
  all_check_operator ops <> Wait.
Proof.
  induction ops as [|op ops IH]; simpl; [discriminate|].
  destruct op as [s|n f|f| |]; unfold check_operator; simpl;
    try discriminate; try exact IH.
  - destruct (mem s _OPERATORS); [exact IH|discriminate].
  - destruct (n =? 2)%nat; [exact IH|discriminate].
Qed.

Lemma py_len_of_sized {A : Type} (s : seq_obj A) :
  sized s = true -> py_len_of s = Ret (len s).
Proof. destruct s; simpl; trivial; discriminate. Qed.

Lemma default_operators_valid (n : nat) :
  forallb accepted (repeat (OpSym "==") n) = true.
Proof. induction n; simpl; trivial. Qed.

Lemma default_operators_hashable (n : nat) :
  forallb hashable (repeat (OpSym "==") n) = true.
Proof. induction n; simpl; trivial. Qed.

Section Construction.

Variables (keys : seq_obj string) (vals : seq_obj value).
Variable ops : option (seq_obj operator).
Hypothesis Hcheckable : checkable keys ops = true.

Local Abbreviation spec :=
  {| d_keys := Some keys; d_vals := Some vals; d_operators := ops |}.
Local Abbreviation operators := (effective_operators keys ops).

Lemma Condition_init_unfold :
  Condition_init spec =
  (do _ <- assert (all_lists keys vals operators) msg_lists;
   do _ <- assert ((len keys =? len keys)%nat
                   && same_length keys vals operators) msg_length;
   do _ <- assert (operators_valid operators) msg_operators;
   Ret {| _keys := items keys; _vals := items vals;
          _operators := items operators |}).
Proof.
  assert (Hops : (match ops with
                  | Some o => Ret o
                  | None => do n <- py_len_of keys;
                            Ret (PyList (repeat (OpSym "==") n))
                  end) = Ret operators).
  { unfold effective_operators, checkable in *; destruct ops; trivial.
    now rewrite (py_len_of_sized keys Hcheckable). }
  assert (Hh : forallb hashable (items operators) = true).
  { unfold effective_operators, checkable in *; destruct ops; trivial.
    apply default_operators_hashable. }
  unfold Condition_init; simpl; rewrite Hops; simpl.
  unfold all_lists, same_length, operators_valid; rewrite ?andb_assoc.
  destruct (is_list keys && is_list vals && is_list operators); simpl;
    trivial.
  destruct ((len keys =? len keys)%nat && (len vals =? len keys)%nat
            && (len operators =? len keys)%nat); simpl; trivial.
  now rewrite (all_check_operator_hashable _ Hh).
Qed.

Lemma Condition_init_accepts :
  all_lists keys vals operators = true ->
  same_length keys vals operators = true ->
  operators_valid operators = true ->
  Condition_init spec =
  Ret {| _keys := items keys; _vals := items vals;
         _operators := items operators |}.
Proof.
  intros Hl Hs Ho; rewrite Condition_init_unfold, Hl, Hs, Ho.
  now rewrite Nat.eqb_refl.
Qed.

Lemma Condition_init_rejects :
  (all_lists keys vals operators = false ->
   Condition_init spec = Exc (AssertionError msg_lists)) /\
  (all_lists keys vals operators = true ->
   same_length keys vals operators = false ->
   Condition_init spec = Exc (AssertionError msg_length)) /\
  (all_lists keys vals operators = true ->
   same_length keys vals operators = true ->
   operators_valid operators = false ->
   Condition_init spec = Exc (AssertionError msg_operators)).
Proof.
  rewrite Condition_init_unfold, Nat.eqb_refl; simpl.
  repeat split.
  - now intros ->.
  - now intros -> ->.
  - now intros -> -> ->.
Qed.

End Construction.

(** Without an operators entry the constructor needs [len(keys)] before any
    assertion. *)
Lemma Condition_init_unsized (vals : seq_obj value) :
  Condition_init {| d_keys := Some PyScalar; d_vals := Some vals;
                    d_operators := None |} = Exc TypeError.
Proof. reflexivity. Qed.

Lemma Condition_init_ret_inv (d : cond_dict) (c : Condition) :
  Condition_init d = Ret c ->
  exists keys vals,
    d_keys d = Some (PyList keys) /\ d_vals d = Some (PyList vals) /\
    _keys c = keys /\ _vals c = vals /\
    List.length (_vals c) = List.length (_keys c) /\
    List.length (_operators c) = List.length (_keys c) /\
    forallb accepted (_operators c) = true.
Proof.
  destruct d as [[keys|] [vals|] ops]; simpl; try discriminate.
  unfold Condition_init; simpl; intros H.
  apply bind_ret_inv in H as (operators & Hops & H).
  apply bind_ret_inv in H as ([] & Hl & H).
  apply bind_ret_inv in H as ([] & Hs & H).
  apply bind_ret_inv in H as (valid & Hv & H).
  apply bind_ret_inv in H as ([] & Ha & H).
  injection H as <-; simpl.
  apply assert_ret in Hl, Hs, Ha; subst valid.
  apply all_check_operator_ret in Hv.
  apply andb_prop in Hl as [Hl _]; apply andb_prop in Hl as [Hk Hvals].
  apply andb_prop in Hs as [Hs Hs2]; apply andb_prop in Hs as [_ Hs1].
  apply Nat.eqb_eq in Hs1, Hs2.
  destruct keys as [keys|keys|], vals as [vals|vals|]; try discriminate.
  exists keys, vals; repeat split; auto.
Qed.

(** ** Evaluation of a condition *)


Lemma zip3_keys {A B C : Type} (la : list A) (lb : list B) (lc : list C)
    (t : A * B * C) :
  In t (zip3 la lb lc) -> In (fst (fst t)) la.
Proof.
  revert lb lc; induction la as [|a la IH]; intros [|b lb] [|c lc];
    simpl; try contradiction.
  intros [<-|H]; [now left|right; eauto].
Qed.

(** [get_operator(op)] is evaluated before the answer is looked up. *)
Lemma check_triples_cons (k : string) (v : value) (op : operator)
    (ts : list (string * value * operator))
    (answers : list (string * value)) :
  check_triples ((k, v, op) :: ts) answers =
  if hashable op then
    (do answer <- lookup k answers;
     do r <- get_operator op v answer;
     if negb (truthy r) then Ret false else check_triples ts answers)
  else Exc TypeError.
Proof. destruct op; reflexivity. Qed.

Lemma get_operator_hashable (op : operator) (x y r : value) :
  get_operator op x y = Ret r -> hashable op = true.
Proof. destruct op; simpl; trivial; discriminate. Qed.


Lemma check_triples_empty (answers : list (string * value)) :
  check_triples [] answers = Ret true.
Proof. reflexivity. Qed.



(** ** Construction and evaluation of conditions, stated *)









(** C10, a dict with only one of ['keys'] and ['vals'] makes an
    unconditional question: no [Condition] is built, whatever else the dict
    holds, and the constructor returns normally. *)
Theorem Question_init_half_dict (key : string) (options : list string)
    (multiple : bool) (d : cond_dict) :
  (d_keys d <> None /\ d_vals d = None) \/
  (d_keys d = None /\ d_vals d <> None) ->
  Question_init key options multiple d =
  Ret {| _key := key; _options := options; _multiple := multiple;
         _condition := None |}.
Proof.
  unfold Question_init.
  intros [[Hk Hv]|[Hk Hv]]; rewrite ?Hk, ?Hv.
  - destruct (d_keys d); [reflexivity|contradiction].
  - reflexivity.
Qed.

Lemma Question_init_half_dict_witness :
  Question_init "activities" ["eat granola"] true
    {| d_keys := Some (PyTuple ["time"; "day"]); d_vals := None;
       d_operators := Some (PyList [OpSym "~"; OpObj]) |} =
  Ret {| _key := "activities"; _options := ["eat granola"];
         _multiple := true; _condition := None |}.
Proof.
  apply (Question_init_half_dict "activities" ["eat granola"] true).
  left; split; [discriminate|reflexivity].
Defined.

(** ** Choosing the variant to ask *)

Lemma first_satisfied_some (self : Questionnaire) (variants : list Question)
    (q : Question) :
  first_satisfied variants self = Ret (Some q) <->
  exists before after,
    variants = (before ++ q :: after)%list /\
    Forall (rejected self) before /\
    check_condition (_condition q) self = Ret true.
Proof.
  induction variants as [|p ps IH]; simpl.
  - split; [discriminate|].
    intros (before & after & E & _); destruct before; discriminate.
  - split.
    + intros H.
      destruct (check_condition (_condition p) self) as [[|]| |] eqn:Hp;
        simpl in H; try discriminate.
      * injection H as <-; exists [], ps; repeat split; auto.
      * apply IH in H as (before & after & -> & Hb & Hq).
        exists (p :: before), after; repeat split; auto.
    + intros (before & after & E & Hb & Hq).
      destruct before as [|p' before]; simpl in E; injection E as -> ->.
      * now rewrite Hq.
      * inversion Hb as [|? ? Hp Hb']; subst.
        unfold rejected in Hp; rewrite Hp; simpl.
        apply IH; exists before, after; auto.
Qed.

Lemma first_satisfied_none (self : Questionnaire) (variants : list Question) :
  first_satisfied variants self = Ret None <->
  Forall (rejected self) variants.
Proof.
  induction variants as [|p ps IH]; simpl.
  - split; [constructor|trivial].
  - split.
    + intros H.
      destruct (check_condition (_condition p) self) as [[|]| |] eqn:Hp;
        simpl in H; try discriminate.
      constructor; [exact Hp|now apply IH].
    + intros H; inversion H as [|? ? Hp Hps]; subst.
      unfold rejected in Hp; rewrite Hp; simpl; now apply IH.
Qed.

Lemma first_satisfied_exc (self : Questionnaire) (variants : list Question)
    (e : exn) :
  first_satisfied variants self = Exc e <->
  exists before p after,
    variants = (before ++ p :: after)%list /\
    Forall (rejected self) before /\
    check_condition (_condition p) self = Exc e.
Proof.
  induction variants as [|p ps IH]; simpl.
  - split; [discriminate|].
    intros (before & p & after & E & _); destruct before; discriminate.
  - split.
    + intros H.
      destruct (check_condition (_condition p) self) as [[|]| |] eqn:Hp;
        simpl in H; try discriminate.
      * apply IH in H as (before & p' & after & -> & Hb & Hq).
        exists (p :: before), p', after; repeat split; auto.
      * injection H as <-; exists [], p, ps; repeat split; auto.
    + intros (before & p' & after & E & Hb & Hq).
      destruct before as [|p0 before]; simpl in E; injection E as -> ->.
      * now rewrite Hq.
      * inversion Hb as [|? ? Hp Hb']; subst.
        unfold rejected in Hp; rewrite Hp; simpl.
        apply IH; exists before, p', after; auto.
Qed.

(** C3, [which_question] returns the first qualifying variant.  For a
    registered key, the result is a question [q] exactly when [q] stands in
    the key's variant list with a condition that evaluates to [True], after
    variants whose conditions all evaluate to [False]; the result is [None]
    exactly when every variant's condition evaluates to [False]; and a
    variant without condition always qualifies. *)
Theorem which_question_first_match (self : Questionnaire) (key : string)
    (variants : list Question) :
  lookup key (questions self) = Ret variants ->
  (forall q,
      which_question key self = Ret (Some q) <->
      exists before after,
        variants = (before ++ q :: after)%list /\
        Forall (rejected self) before /\
        check_condition (_condition q) self = Ret true) /\
  (which_question key self = Ret None <-> Forall (rejected self) variants) /\
  (forall q,
      _condition q = None ->
      check_condition (_condition q) self = Ret true).
Proof.
  intros Hv; unfold which_question; rewrite Hv; simpl.
  split; [|split].
  - intros q; apply first_satisfied_some.
  - apply first_satisfied_none.
  - now intros q ->.
Qed.

Lemma which_question_first_match_witness :
  which_question "activities" saturday_morning =
  Ret (Some {| _key := "activities";
               _options := ["eat barbacoa"; "watch footy match";
                             "walk the dog"];
               _multiple := true;
               _condition := eq_condition ["day"; "time"]
                                [VStr "saturday"; VStr "morning"] |}).
Proof.
  refine (proj2 (proj1 (which_question_first_match saturday_morning
                          "activities" _ _) _) _).
  - reflexivity.
  - eexists [_], [_]; split; [reflexivity|split].
    + repeat constructor.
    + reflexivity.
Defined.

(** ** A key that has no answer *)

Lemma check_triples_missing (answers : list (string * value))
    (before after : list (string * value * operator))
    (key : string) (val : value) (op : operator) :
  Forall (triple_holds answers) before ->
  hashable op = true ->
  assoc key answers = None ->
  check_triples (before ++ (key, val, op) :: after) answers =
  Exc (KeyError key).
Proof.
  intros Hb Hop Hk;
    induction Hb as [|[[k v] o] ts (a & r & Ha & Hr & Ht) _ IH];
    simpl app; rewrite check_triples_cons; unfold lookup.
  - now rewrite Hop, Hk.
  - rewrite (get_operator_hashable _ _ _ _ Hr).
    rewrite Ha; simpl; rewrite Hr; simpl; rewrite Ht; simpl; exact IH.
Qed.

(** The loop returns at the first triple that fails, whatever follows. *)
Lemma check_triples_short_circuit (answers : list (string * value))
    (before after : list (string * value * operator))
    (key : string) (val : value) (op : operator) (answer r : value) :
  Forall (triple_holds answers) before ->
  assoc key answers = Some answer ->
  get_operator op val answer = Ret r ->
  truthy r = false ->
  check_triples (before ++ (key, val, op) :: after) answers = Ret false.
Proof.
  intros Hb Hk Hr Ht;
    induction Hb as [|[[k v] o] ts (a & r' & Ha & Hr' & Ht') _ IH];
    simpl app; rewrite check_triples_cons; unfold lookup.
  - rewrite (get_operator_hashable _ _ _ _ Hr), Hk; simpl.
    now rewrite Hr; simpl; rewrite Ht.
  - rewrite (get_operator_hashable _ _ _ _ Hr').
    rewrite Ha; simpl; rewrite Hr'; simpl; rewrite Ht'; simpl; exact IH.
Qed.

Lemma zip3_operators {A B C : Type} (la : list A) (lb : list B)
    (lc : list C) (t : A * B * C) :
  In t (zip3 la lb lc) -> In (snd t) lc.
Proof.
  revert lb lc; induction la as [|a la IH]; intros [|b lb] [|c lc];
    simpl; try contradiction.
  intros [<-|H]; [now left|right; eauto].
Qed.

Lemma accepted_hashable (op : operator) :
  accepted op = true -> hashable op = true.
Proof. destruct op; simpl; trivial. Qed.

(** C8 as amended, a missing answer and the triples before it.  For a
    constructed condition, when the triples before the first one whose key
    has no answer all hold, [check_condition] raises [KeyError] for that
    key, and when the condition belongs to a variant that is reached (the
    variants before it were rejected), [which_question] and the pass over
    the keys raise the same error instead of handling it.  When instead a
    triple fails after triples that hold, [check_condition] returns [False]
    there, whatever the triples after it name: a key without answer among
    them is never looked up. *)
Theorem missing_answer_raises (d : cond_dict) (c : Condition)
    (self : Questionnaire) :
  Condition_init d = Ret c ->
  let triples := zip3 (_keys c) (_vals c) (_operators c) in
  (forall before key val op after,
      triples = (before ++ (key, val, op) :: after)%list ->
      Forall (triple_holds (choices self)) before ->
      mem key (choices self) = false ->
      check_condition (Some c) self = Exc (KeyError key) /\
      (forall asked earlier q later,
          lookup asked (questions self) = Ret (earlier ++ q :: later)%list ->
          Forall (rejected self) earlier ->
          _condition q = Some c ->
          which_question asked self = Exc (KeyError key) /\
          (forall keys s,
              ask_keys (asked :: keys) self s = Exc (KeyError key)))) /\
  (forall before key val op after answer r,
      triples = (before ++ (key, val, op) :: after)%list ->
      Forall (triple_holds (choices self)) before ->
      assoc key (choices self) = Some answer ->
      get_operator op val answer = Ret r ->
      truthy r = false ->
      check_condition (Some c) self = Ret false /\
      (forall missing v o,
          In (missing, v, o) after ->
          mem missing (choices self) = false ->
          check_condition (Some c) self <> Exc (KeyError missing))).
Proof.
  intros Hinit triples; split.
  - intros before key val op after Hz Hb Hk.
    apply mem_false_assoc in Hk.
    assert (Hop : hashable op = true).
    { apply Condition_init_ret_inv in Hinit
        as (ks & vs & _ & _ & _ & _ & _ & _ & Hops).
      rewrite forallb_forall in Hops; apply accepted_hashable, Hops.
      apply (zip3_operators (_keys c) (_vals c) (_operators c) (key, val, op)).
      fold triples; rewrite Hz; apply in_or_app; right; now left. }
    assert (Hc : check_condition (Some c) self = Exc (KeyError key)).
    { unfold check_condition; fold triples; rewrite Hz.
      now apply check_triples_missing. }
    split; [exact Hc|].
    intros asked earlier q later Hl He Hq.
    assert (Hw : which_question asked self = Exc (KeyError key)).
    { unfold which_question; rewrite Hl; simpl.
      apply first_satisfied_exc; exists earlier, q, later.
      rewrite Hq; auto. }
    split; [exact Hw|].
    intros keys s; simpl; now rewrite Hw.
  - intros before key val op after answer r Hz Hb Hk Hr Ht.
    assert (Hc : check_condition (Some c) self = Ret false).
    { unfold check_condition; fold triples; rewrite Hz.
      eapply check_triples_short_circuit; eauto. }
    split; [exact Hc|].
    intros missing v o _ _; rewrite Hc; discriminate.
Qed.

Lemma missing_answer_raises_witness :
  check_condition (Some saturday_morning_condition) day_only =
  Exc (KeyError "time").
Proof.
  refine (proj1 (proj1 (missing_answer_raises saturday_morning_dict
                          saturday_morning_condition day_only eq_refl)
                   [("day", VStr "saturday", OpSym "==")] "time"
                   (VStr "morning") (OpSym "==") [] _ _ _)).
  - reflexivity.
  - constructor; [|constructor].
    exists (VStr "saturday"), (VBool true); repeat split.
  - reflexivity.
Defined.

(** C8 as stated fails: the condition refers to [time], which has no answer,
    yet its evaluation returns [False], because the triple on [day] fails
    first and ends the loop. *)
Lemma missing_answer_short_circuit :
  let self := {| questions := activities_registry;
                 choices := [("day", VStr "friday")] |} in
  let c := {| _keys := ["day"; "time"];
              _vals := [VStr "saturday"; VStr "morning"];
              _operators := [OpSym "=="; OpSym "=="] |} in
  In "time" (_keys c) /\ mem "time" (choices self) = false /\
  check_condition (Some c) self = Ret false.
Proof. repeat split; simpl; auto. Qed.

(** ** The picker *)

Lemma pick_loop_title (pool acc : list string)
    (t1 t2 i1 i2 ALL DONE : string) (s : script) :
  pick_loop pool acc t1 i1 ALL DONE s = pick_loop pool acc t2 i2 ALL DONE s.
Proof.
  revert pool acc; induction s as [|r rest IH]; intros pool acc; simpl;
    trivial.
  destruct (Picker pool) as [[]| |]; simpl; trivial.
  destruct (picker_start pool r) as [[option i]|]; trivial.
  destruct (i <? 0); trivial.
  destruct (py_eq option (VStr ALL)); trivial.
  destruct (py_eq option (VStr DONE)); trivial.
  destruct option; trivial.
  destruct (list_remove s pool); simpl; trivial.
Qed.

(** The text on display has no part in what the picker returns. *)
Lemma _pick_title (multiple : bool) (options : list string)
    (t1 t2 i1 i2 : string) (s : script) :
  _pick multiple options t1 i1 s = _pick multiple options t2 i2 s.
Proof.
  unfold _pick, back_pick_multiple, back_pick; destruct multiple; trivial.
  apply pick_loop_title.
Qed.

Lemma Picker_nonempty (pool : list string) :
  pool <> [] -> Picker pool = Ret tt.
Proof. destruct pool; [contradiction|reflexivity]. Qed.

Lemma pick_loop_list (pool acc : list string)
    (title indicator ALL DONE : string) (s : script)
    (answer : value) (i : Z) (rest : script) :
  pick_loop pool acc title indicator ALL DONE s = Ret ((answer, i), rest) ->
  exists picked, answer = VList picked.
Proof.
  revert pool acc; induction s as [|r s' IH]; intros pool acc; simpl;
    (destruct (Picker pool) as [[]| |]; simpl; [|discriminate..]);
    [discriminate|].
  destruct (picker_start pool r) as [[option j]|]; [|discriminate].
  destruct (j <? 0); [intros [= <- _ _]; eauto|].
  destruct (py_eq option (VStr ALL)); [intros [= <- _ _]; eauto|].
  destruct (py_eq option (VStr DONE)); [intros [= <- _ _]; eauto|].
  destruct option; try discriminate.
  destruct (list_remove s pool); simpl; try discriminate.
  apply IH.
Qed.

(** What [_pick] hands back with a negative index: [None] from the single
    picker, the list of selections so far from the multiple one. *)
Lemma _pick_back (multiple : bool) (options : list string)
    (title indicator : string) (s : script)
    (answer : value) (i : Z) (rest : script) :
  _pick multiple options title indicator s = Ret ((answer, i), rest) ->
  i < 0 ->
  if multiple then exists picked, answer = VList picked else answer = VNone.
Proof.
  unfold _pick; destruct multiple; intros H Hi.
  - eapply pick_loop_list; exact H.
  - unfold back_pick in H.
    destruct (Picker options) as [[]| |]; simpl in H; try discriminate.
    destruct s as [|r s']; [discriminate|].
    destruct r as [|n]; simpl in H.
    + now injection H as <- _ _.
    + destruct (nth_error options n); [|discriminate].
      injection H as _ <- _; lia.
Qed.

Lemma pick_loop_all (pool acc : list string)
    (title indicator ALL DONE : string) (i : nat) (rest : script) :
  nth_error pool i = Some ALL ->
  pick_loop pool acc title indicator ALL DONE (Choose i :: rest) =
    Ret ((VList [ALL], Z.of_nat i), rest).
Proof.
  intros Hi.
  assert (Hneg : (Z.of_nat i <? 0) = false) by (apply Z.ltb_ge; lia).
  assert (Hpool : Picker pool = Ret tt).
  { apply Picker_nonempty; intros ->; destruct i; discriminate. }
  simpl; rewrite Hpool, Hi, Hneg; simpl.
  now rewrite String.eqb_refl.
Qed.

(** At the entry of [back_pick_multiple] the marker is entry 0 of the pool. *)
Lemma back_pick_multiple_all (options : list string)
    (title indicator ALL DONE : string) (rest : script) :
  back_pick_multiple options title indicator ALL DONE (Choose 0 :: rest) =
  Ret ((VList [ALL], 0), rest).
Proof.
  unfold back_pick_multiple.
  now rewrite (pick_loop_all ([ALL] ++ options ++ [DONE]) [] title indicator
                 ALL DONE 0 rest eq_refl).
Qed.

(** C7, selecting the "all" entry.  Whatever the working pool and the
    selections made so far, a response that lands on an entry equal to the
    [ALL] marker ends [back_pick_multiple]'s loop at once with the
    one-element list holding the marker, not the real options, and with the
    non-negative index of the entry, which is the signal of success; at the
    entry of [back_pick_multiple] the marker is the first entry. *)
Theorem pick_all_returns_marker (pool acc : list string)
    (title indicator ALL DONE : string) (i : nat) (rest : script) :
  nth_error pool i = Some ALL ->
  pick_loop pool acc title indicator ALL DONE (Choose i :: rest) =
    Ret ((VList [ALL], Z.of_nat i), rest) /\
  (Z.of_nat i <? 0) = false /\
  (forall options,
      back_pick_multiple options title indicator ALL DONE (Choose 0 :: rest) =
      Ret ((VList [ALL], 0), rest)).
Proof.
  intros Hi; repeat apply conj.
  - now apply pick_loop_all.
  - apply Z.ltb_ge; lia.
  - intros options; apply back_pick_multiple_all.
Qed.

Lemma pick_all_returns_marker_witness :
  pick_loop ["all"; "go to work"; "done..."] ["eat granola"; "get dressed"]
    "activities: " "=>" "all" "done..." [Choose 0; GoBack] =
  Ret ((VList ["all"], 0), [GoBack]).
Proof.
  refine (proj1 (pick_all_returns_marker ["all"; "go to work"; "done..."]
                   ["eat granola"; "get dressed"] "activities: " "=>" "all"
                   "done..." 0 [GoBack] _)).
  reflexivity.
Defined.

(** ** Going back *)

Lemma go_back_length (n : Z) (self : Questionnaire) :
  0 <= n ->
  Z.of_nat (List.length (choices (go_back n self))) =
  Z.max (Z.of_nat (List.length (choices self)) - n - 1) 0.
Proof.
  intros Hn; unfold go_back; simpl.
  rewrite length_firstn; lia.
Qed.

Lemma go_back_split (n : Z) (self : Questionnaire) :
  0 <= n -> n + 1 <= Z.of_nat (List.length (choices self)) ->
  exists removed,
    choices self = (choices (go_back n self) ++ removed)%list /\
    Z.of_nat (List.length removed) = n + 1.
Proof.
  intros Hn Hk.
  set (N := Z.to_nat (Z.max (Z.of_nat (List.length (choices self)) - n - 1) 0)).
  exists (skipn N (choices self)); split.
  - unfold go_back; simpl; fold N; now rewrite firstn_skipn.
  - rewrite length_skipn; unfold N; lia.
Qed.

Lemma firstn_pred_removelast {A : Type} (l : list A) :
  firstn (List.length l - 1) l = removelast l.
Proof.
  rewrite removelast_firstn_len; f_equal; lia.
Qed.

(** After the tentative entry went to the end, [go_back(0)] drops it alone
    and [go_back(1)] drops it with the entry before it. *)
Lemma go_back_after_append (key : string) (v : value) (self : Questionnaire) :
  mem key (choices self) = false ->
  choices (go_back 0 (set_choice key v self)) = choices self /\
  choices (go_back 1 (set_choice key v self)) = removelast (choices self).
Proof.
  intros Hk; unfold go_back, set_choice; simpl.
  rewrite (setitem_fresh _ _ _ Hk), length_app; simpl.
  split.
  - replace (Z.to_nat _) with (List.length (choices self) + 0)%nat by lia.
    now rewrite firstn_app_2, app_nil_r.
  - replace (Z.to_nat _) with (List.length (choices self) - 1)%nat by lia.
    rewrite firstn_app.
    replace (_ - 1 - _)%nat with 0%nat by lia.
    now rewrite firstn_O, app_nil_r, firstn_pred_removelast.
Qed.

Lemma show_choices_ret (self : Questionnaire) (s : string) :
  questions self <> [] -> exists shown, show_choices self s = Ret shown.
Proof.
  unfold show_choices; destruct (questions self) as [|[k v] qs];
    [contradiction|intros _; simpl].
  destruct (max_len (keys_of qs)); simpl; eauto.
Qed.

Lemma rewind_written (key : string) (multiple : bool) (answer : value)
    (self : Questionnaire) :
  rewind key multiple (set_choice key answer self) =
  Ret (go_back (if multiple && truthy answer then 0 else 1)
               (set_choice key answer self)).
Proof.
  unfold rewind, lookup; destruct multiple; simpl; trivial.
  rewrite assoc_setitem; simpl; now destruct (truthy answer).
Qed.

(** [prompt] on a back step: the tentative answer is written under the key,
    then [go_back] runs on the written state. *)
Lemma prompt_went_back (key : string) (options : list string)
    (prompt_ : string) (multiple : bool) (indicator title : string)
    (self : Questionnaire) (s : script)
    (answer : value) (i : Z) (rest : script) :
  questions self <> [] ->
  _pick multiple options title indicator s = Ret ((answer, i), rest) ->
  i < 0 ->
  prompt key options prompt_ multiple indicator self s =
  Ret (false,
       go_back (if multiple && truthy answer then 0 else 1)
               (set_choice key answer self),
       rest).
Proof.
  intros Hq Hp Hi; unfold prompt.
  destruct (show_choices_ret self "" Hq) as [shown ->]; simpl.
  rewrite (_pick_title _ _ _ title _ indicator), Hp; simpl.
  apply Z.ltb_lt in Hi; rewrite Hi, rewind_written; reflexivity.
Qed.

Lemma prompt_answered (key : string) (options : list string)
    (prompt_ : string) (multiple : bool) (indicator title : string)
    (self : Questionnaire) (s : script)
    (answer : value) (i : Z) (rest : script) :
  questions self <> [] ->
  _pick multiple options title indicator s = Ret ((answer, i), rest) ->
  0 <= i ->
  prompt key options prompt_ multiple indicator self s =
  Ret (true, set_choice key answer self, rest).
Proof.
  intros Hq Hp Hi; unfold prompt.
  destruct (show_choices_ret self "" Hq) as [shown ->]; simpl.
  rewrite (_pick_title _ _ _ title _ indicator), Hp; simpl.
  apply Z.ltb_ge in Hi; now rewrite Hi.
Qed.

(** C9, [go_back(n)] keeps the first [max(k - n - 1, 0)] of the [k] recorded
    entries, in order, so it drops [n + 1] entries from the end when there
    are that many; and on a back step [prompt] first writes the tentative
    answer under the current key and only then calls [go_back], with 0 or
    1. *)
Theorem go_back_keeps_prefix :
  (forall (self : Questionnaire) (n : Z),
      0 <= n ->
      let k := Z.of_nat (List.length (choices self)) in
      choices (go_back n self) =
        firstn (Z.to_nat (Z.max (k - n - 1) 0)) (choices self) /\
      Z.of_nat (List.length (choices (go_back n self))) =
        Z.max (k - n - 1) 0 /\
      questions (go_back n self) = questions self /\
      (n + 1 <= k ->
       exists removed,
         choices self = (choices (go_back n self) ++ removed)%list /\
         Z.of_nat (List.length removed) = n + 1)) /\
  (forall key options prompt_ multiple indicator title self s answer i rest,
      questions self <> [] ->
      _pick multiple options title indicator s = Ret ((answer, i), rest) ->
      i < 0 ->
      let written := set_choice key answer self in
      assoc key (choices written) = Some answer /\
      exists n,
        (n = 0 \/ n = 1) /\
        prompt key options prompt_ multiple indicator self s =
        Ret (false, go_back n written, rest)).
Proof.
  split.
  - intros self n Hn k; repeat split.
    + now apply go_back_length.
    + now apply go_back_split.
  - intros key options prompt_ multiple indicator title self s answer i rest
      Hq Hp Hi written; split.
    + apply assoc_setitem.
    + exists (if multiple && truthy answer then 0 else 1); split.
      * destruct (multiple && truthy answer); auto.
      * eapply prompt_went_back; eauto.
Qed.

Lemma go_back_keeps_prefix_witness :
  choices (go_back 1 three_answers) = [("day", VStr "friday")] /\
  (let written := set_choice "time" VNone day_only in
   assoc "time" (choices written) = Some VNone /\
   exists n,
     (n = 0 \/ n = 1) /\
     prompt "time" ["morning"; "night"] "" false "=>" day_only [GoBack] =
     Ret (false, go_back n written, [])).
Proof.
  split.
  - refine (proj1 (proj1 go_back_keeps_prefix three_answers 1 _)).
    lia.
  - refine (proj2 go_back_keeps_prefix "time" ["morning"; "night"] "" false
              "=>" "" day_only [GoBack] VNone (-1) [] _ _ _).
    + discriminate.
    + reflexivity.
    + lia.
Defined.

(** ** Back navigation in [prompt] *)

Lemma removelast_last_key {A : Type} (kept : list (string * A))
    (k : string) (a : A) :
  NoDup (keys_of (kept ++ [(k, a)])) ->
  removelast (kept ++ [(k, a)]) = kept /\ mem k kept = false.
Proof.
  intros Hnd; split; [apply removelast_last|].
  apply mem_false_assoc, assoc_none_notin.
  unfold keys_of in *; rewrite map_app in Hnd; simpl in Hnd.
  apply NoDup_remove_2 in Hnd; now rewrite app_nil_r in Hnd.
Qed.

Lemma mem_removelast {A : Type} (k : string) (d : list (string * A)) :
  mem k d = false -> mem k (removelast d) = false.
Proof.
  rewrite !mem_false_assoc, !assoc_none_notin; intros Hk Hin; apply Hk.
  destruct (@exists_last _ d) as (d' & [k' a] & ->).
  - intros ->; contradiction.
  - rewrite removelast_last in Hin.
    unfold keys_of in *; rewrite map_app; apply in_or_app; now left.
Qed.

(** The loop body of a pass at a key that has no answer and resolves to a
    variant: the key is prompted. *)
Lemma ask_keys_prompts (key : string) (keys : list string) (q : Question)
    (self : Questionnaire) (s : script) :
  mem key (choices self) = false ->
  which_question key self = Ret (Some q) ->
  ask_keys (key :: keys) self s =
  (do (ok, self', rest) <- prompt key (_options q) "" (_multiple q) "=>"
                             self s;
   if negb ok then Ret (false, self', rest) else ask_keys keys self' rest).
Proof.
  intros Hk Hq; simpl; now rewrite Hq, Hk.
Qed.

(** ** Registration *)

Lemma assoc_setdefault_append (q : Question)
    (d : list (string * list Question)) :
  assoc (_key q) (setdefault_append q d) =
  Some (match assoc (_key q) d with Some l => l | None => [] end ++ [q])%list.
Proof.
  induction d as [|[k l] d IH]; simpl.
  - now rewrite String.eqb_refl.
  - destruct (k =? _key q)%string eqn:E; simpl; rewrite E; trivial.
Qed.

Lemma assoc_setdefault_append_other (q : Question) (k : string)
    (d : list (string * list Question)) :
  k <> _key q -> assoc k (setdefault_append q d) = assoc k d.
Proof.
  intros Hk; induction d as [|[k' l] d IH]; simpl.
  - destruct (String.eqb_spec (_key q) k); congruence.
  - destruct (String.eqb_spec k' (_key q)) as [->|Hne]; simpl.
    + destruct (String.eqb_spec (_key q) k); congruence.
    + now rewrite IH.
Qed.

Lemma keys_setdefault_append (q : Question)
    (d : list (string * list Question)) :
  keys_of (setdefault_append q d) =
  if mem (_key q) d then keys_of d else (keys_of d ++ [_key q])%list.
Proof.
  unfold mem; induction d as [|[k l] d IH]; simpl; trivial.
  destruct (k =? _key q)%string; simpl; trivial.
  rewrite IH; now destruct (assoc (_key q) d).
Qed.

Lemma Question_init_fields (key : string) (options : list string)
    (multiple : bool) (d : cond_dict) (q : Question) :
  Question_init key options multiple d = Ret q ->
  _key q = key /\ _options q = options /\ _multiple q = multiple /\
  match d_keys d, d_vals d with
  | Some _, Some _ =>
      exists c, Condition_init d = Ret c /\ _condition q = Some c
  | _, _ => _condition q = None
  end.
Proof.
  unfold Question_init; intros H.
  apply bind_ret_inv in H as (cond & Hc & [= <-]); simpl.
  repeat split.
  destruct (d_keys d), (d_vals d); try now injection Hc as <-.
  apply bind_ret_inv in Hc as (c & Hc & [= <-]); eauto.
Qed.

(** X16, what [add_question] does with the [Question] it is handed.  For a
    question built by [Question.__init__] from a key, the options, the
    [multiple] flag and a condition dict, it appends the question, with the
    condition the constructor gave it (none when the dict lacks keys or
    values), to the variants registered under the question's key, leaves
    every other key and the recorded answers alone, and keeps the order of
    the keys (a new key goes last). *)
Theorem add_question_appends (key : string) (options : list string)
    (multiple : bool) (d : cond_dict) (q : Question)
    (self : Questionnaire) :
  Question_init key options multiple d = Ret q ->
  let self' := fst (add_question q self) in
  lookup key (questions self') = Ret (variants_of key self ++ [q])%list /\
  _key q = key /\ _options q = options /\ _multiple q = multiple /\
  match d_keys d, d_vals d with
  | Some _, Some _ =>
      exists c, Condition_init d = Ret c /\ _condition q = Some c
  | _, _ => _condition q = None
  end /\
  (forall k, k <> key ->
             assoc k (questions self') = assoc k (questions self)) /\
  keys_of (questions self') =
    (if mem key (questions self) then keys_of (questions self)
     else (keys_of (questions self) ++ [key])%list) /\
  choices self' = choices self.
Proof.
  intros Hq self'; subst self'; simpl.
  destruct (Question_init_fields _ _ _ _ _ Hq) as (Hk & Ho & Hm & Hc).
  subst key; repeat apply conj; trivial.
  - unfold lookup, variants_of; now rewrite assoc_setdefault_append.
  - intros k Hne; now apply assoc_setdefault_append_other.
  - apply keys_setdefault_append.
Qed.

Lemma add_question_appends_witness :
  lookup "day" (questions (fst (add_question day_question Questionnaire_init)))
  = Ret [day_question].
Proof.
  refine (proj1 (add_question_appends "day"
                   ["monday"; "friday"; "saturday"] false empty_dict
                   day_question Questionnaire_init _)).
  reflexivity.
Defined.

(** C1, the construction API as the claim and the example client call it.
    [add_question] has the one parameter [question].  The first call of the
    example client, [q.add_question('day', options=[...])], raises
    [TypeError] before the body runs, and so does every call that passes a
    key together with keyword arguments (options, prompter, condition) or
    with further positional ones; a call that passes the key alone raises
    [AttributeError] at [question.key()].  Nothing is registered by such a call.  A call
    returns only when it is handed one [Question] object and nothing else;
    it then files the question under its key and evaluates to [None], on
    which no [add_condition] can be called. *)
Theorem add_question_call (self : Questionnaire) :
  call_add_question [ArgStr "day"]
    [("options", ArgList ["monday"; "friday"; "saturday"])] self
  = Exc TypeError /\
  (forall key name a kwargs,
      call_add_question [ArgStr key] ((name, a) :: kwargs) self
      = Exc TypeError) /\
  (forall key options more kwargs,
      call_add_question (ArgStr key :: ArgList options :: more) kwargs self
      = Exc TypeError) /\
  (forall key, call_add_question [ArgStr key] [] self = Exc AttributeError) /\
  (forall args kwargs self' handle,
      call_add_question args kwargs self = Ret (self', handle) ->
      exists q,
        ((args = [ArgQuestion q] /\ kwargs = []) \/
         (args = [] /\ kwargs = [("question", ArgQuestion q)])) /\
        lookup (_key q) (questions self') =
          Ret (variants_of (_key q) self ++ [q])%list /\
        choices self' = choices self /\
        handle = ONone /\
        supports handle "add_condition" = false).
Proof.
  repeat apply conj; trivial.
  intros args kwargs self' handle H; unfold call_add_question in H.
  apply bind_ret_inv in H as (question & Hbind & H).
  destruct question as [x|l|d|q]; try discriminate.
  injection H as <- <-; exists q; repeat apply conj; trivial.
  - destruct args as [|a [|a' args]], kwargs as [|[name b] [|kw kwargs]];
      try discriminate.
    + destruct (String.eqb_spec name "question"); [|discriminate].
      injection Hbind as ->; subst name; now right.
    + injection Hbind as ->; now left.
  - simpl; unfold lookup, variants_of; now rewrite assoc_setdefault_append.
Qed.

Lemma add_question_call_witness :
  exists q,
    (([ArgQuestion day_question] = [ArgQuestion q] /\
      @nil (string * argument) = []) \/
     ([ArgQuestion day_question] = [] /\
      [] = [("question", ArgQuestion q)])) /\
    lookup (_key q) (questions (fst (add_question day_question
                                       Questionnaire_init))) =
      Ret (variants_of (_key q) Questionnaire_init ++ [q])%list /\
    choices (fst (add_question day_question Questionnaire_init)) =
      choices Questionnaire_init /\
    snd (add_question day_question Questionnaire_init) = ONone /\
    supports (snd (add_question day_question Questionnaire_init))
             "add_condition" = false.
Proof.
  apply (proj2 (proj2 (proj2 (proj2 (add_question_call Questionnaire_init))))
           [ArgQuestion day_question] []).
  reflexivity.
Defined.

(** ** Invariants of the two dictionaries *)

Lemma keys_setitem {A : Type} (k : string) (v : A) (d : list (string * A)) :
  keys_of (setitem k v d) =
  if mem k d then keys_of d else (keys_of d ++ [k])%list.
Proof.
  destruct (mem k d) eqn:Hk.
  - now apply keys_setitem_present.
  - rewrite (setitem_fresh _ _ _ Hk); unfold keys_of; now rewrite map_app.
Qed.

Lemma NoDup_snoc (k : string) (l : list string) :
  NoDup l -> ~ In k l -> NoDup (l ++ [k]).
Proof.
  intros Hl Hk; apply NoDup_app; trivial.
  - constructor; [intros []|constructor].
  - intros x Hx [<-|[]]; contradiction.
Qed.

Lemma set_choice_nodup (key : string) (v : value) (self : Questionnaire) :
  NoDup (keys_of (choices self)) ->
  NoDup (keys_of (choices (set_choice key v self))).
Proof.
  intros Hnd; simpl; rewrite keys_setitem.
  destruct (mem key (choices self)) eqn:Hk; trivial.
  apply NoDup_snoc; trivial.
  now apply assoc_none_notin, mem_false_assoc.
Qed.

Lemma NoDup_firstn {A : Type} (n : nat) (l : list A) :
  NoDup l -> NoDup (firstn n l).
Proof.
  intros Hl; rewrite <- (firstn_skipn n l) in Hl.
  now apply NoDup_app_remove_r in Hl.
Qed.

Lemma go_back_nodup (n : Z) (self : Questionnaire) :
  NoDup (keys_of (choices self)) ->
  NoDup (keys_of (choices (go_back n self))).
Proof.
  intros Hnd; unfold go_back, keys_of; simpl.
  rewrite <- firstn_map; now apply NoDup_firstn.
Qed.

Lemma add_question_nodup (q : Question) (self : Questionnaire) :
  NoDup (keys_of (questions self)) ->
  NoDup (keys_of (questions (fst (add_question q self)))).
Proof.
  intros Hnd; simpl; rewrite keys_setdefault_append.
  destruct (mem (_key q) (questions self)) eqn:Hk; trivial.
  apply NoDup_snoc; trivial.
  now apply assoc_none_notin, mem_false_assoc.
Qed.

Lemma NoDup_app_apart {A : Type} (l l' : list A) (a : A) :
  NoDup (l ++ l') -> In a l -> ~ In a l'.
Proof.
  induction l as [|x l IH]; simpl; [intros _ []|].
  intros Hnd [->|Hin] Hin'; inversion Hnd as [|? ? Hx Hnd']; subst.
  - apply Hx, in_or_app; now right.
  - now apply IH.
Qed.

Lemma assoc_middle {A : Type} (k : string) (a : A)
    (pre post : list (string * A)) :
  ~ In k (keys_of pre) -> assoc k (pre ++ (k, a) :: post)%list = Some a.
Proof.
  intros Hk; induction pre as [|[k' a'] pre IH]; simpl.
  - now rewrite String.eqb_refl.
  - destruct (String.eqb_spec k' k) as [->|Hne].
    + exfalso; apply Hk; now left.
    + apply IH; intros Hin; apply Hk; now right.
Qed.

(** ** Conditions only read the answers of the keys they name *)

Lemma check_triples_agree (a1 a2 : list (string * value))
    (triples : list (string * value * operator)) :
  (forall t, In t triples -> assoc (fst (fst t)) a1 = assoc (fst (fst t)) a2) ->
  check_triples triples a1 = check_triples triples a2.
Proof.
  induction triples as [|[[k v] op] ts IH]; intros H; trivial.
  pose proof (H (k, v, op) (or_introl eq_refl)) as E; simpl in E.
  rewrite !check_triples_cons; destruct (hashable op); trivial.
  unfold lookup; rewrite E.
  destruct (assoc k a2) as [answer|]; simpl; trivial.
  destruct (get_operator op v answer) as [r| |]; simpl; trivial.
  destruct (truthy r); simpl; trivial.
  apply IH; intros t Ht; apply H; now right.
Qed.

Lemma check_condition_agree (s1 s2 : Questionnaire) (seen : list string)
    (q : Question) :
  refers_within seen q = true ->
  (forall k, In k seen -> assoc k (choices s1) = assoc k (choices s2)) ->
  check_condition (_condition q) s1 = check_condition (_condition q) s2.
Proof.
  unfold refers_within; intros Hr Hs.
  destruct (_condition q) as [c|]; simpl; trivial.
  apply check_triples_agree; intros t Ht; apply Hs.
  apply zip3_keys in Ht.
  rewrite forallb_forall in Hr; specialize (Hr _ Ht).
  apply existsb_exists in Hr as (k' & Hin & Heq).
  now apply String.eqb_eq in Heq as ->.
Qed.

Lemma first_satisfied_agree (s1 s2 : Questionnaire) (seen : list string)
    (variants : list Question) :
  forallb (refers_within seen) variants = true ->
  (forall k, In k seen -> assoc k (choices s1) = assoc k (choices s2)) ->
  first_satisfied variants s1 = first_satisfied variants s2.
Proof.
  intros Hr Hs; induction variants as [|q qs IH]; simpl; trivial.
  simpl in Hr; apply andb_prop in Hr as [Hq Hqs].
  rewrite (check_condition_agree s1 s2 seen q Hq Hs).
  destruct (check_condition (_condition q) s2) as [[|]| |]; simpl; auto.
Qed.

Lemma refs_earlier_split (seen : list string)
    (pre post : list (string * list Question))
    (k : string) (variants : list Question) :
  refs_earlier seen (pre ++ (k, variants) :: post) = true ->
  forallb (refers_within (seen ++ keys_of pre)) variants = true.
Proof.
  revert seen; induction pre as [|[k' l] pre IH]; intros seen; simpl.
  - rewrite app_nil_r; intros H; now apply andb_prop in H as [H _].
  - intros H; apply andb_prop in H as [_ H].
    apply IH in H; now rewrite <- app_assoc in H.
Qed.

(** ** A pass over the questions *)

Lemma prompt_ret_inv (key : string) (options : list string)
    (prompt_ : string) (multiple : bool) (indicator : string)
    (self : Questionnaire) (s : script)
    (ok : bool) (self' : Questionnaire) (rest : script) :
  prompt key options prompt_ multiple indicator self s =
    Ret (ok, self', rest) ->
  questions self' = questions self /\
  (ok = true -> exists answer, self' = set_choice key answer self).
Proof.
  unfold prompt; intros H.
  apply bind_ret_inv in H as (shown & _ & H).
  apply bind_ret_inv in H as ([[answer i] rest'] & _ & H).
  destruct (i <? 0).
  - rewrite rewind_written in H; simpl in H.
    injection H as <- <- <-; split; [reflexivity|discriminate].
  - injection H as <- <- <-; split; [reflexivity|eauto].
Qed.

(** A pass that runs to its end has only appended answers, and only for keys
    it visited. *)
Lemma ask_keys_appends (keys : list string) (self : Questionnaire)
    (s : script) (self' : Questionnaire) (rest : script) :
  ask_keys keys self s = Ret (true, self', rest) ->
  questions self' = questions self /\
  exists added,
    choices self' = (choices self ++ added)%list /\
    incl (keys_of added) keys.
Proof.
  revert self s; induction keys as [|key keys IH]; intros self s; simpl.
  - intros [= <- _]; split; trivial.
    exists []; split; [now rewrite app_nil_r|intros x []].
  - intros H; apply bind_ret_inv in H as (question & _ & H).
    assert (Hskip : ask_keys keys self s = Ret (true, self', rest) ->
                    questions self' = questions self /\
                    exists added,
                      choices self' = (choices self ++ added)%list /\
                      incl (keys_of added) (key :: keys)).
    { intros H'; apply IH in H' as (Hq & added & Hc & Hi).
      split; trivial; exists added; split; trivial.
      now apply incl_tl. }
    destruct question as [q|]; [|now apply Hskip].
    destruct (mem key (choices self)) eqn:Hk; simpl in H; [now apply Hskip|].
    apply bind_ret_inv in H as ([[ok self1] s1] & Hp & H).
    destruct ok; simpl in H; [|discriminate].
    apply prompt_ret_inv in Hp as (Hq1 & Hans).
    destruct (Hans eq_refl) as (answer & ->).
    apply IH in H as (Hq & added & Hc & Hi).
    split; [exact Hq|].
    exists ((key, answer) :: added); split.
    + rewrite Hc; simpl; rewrite (setitem_fresh _ _ _ Hk).
      now rewrite <- app_assoc.
    + simpl; intros x [<-|Hx]; [now left|right; now apply Hi].
Qed.

(** Once a pass over a stretch [mid] of the registry has run to its end, a
    second pass over the same keys from the state it reached prompts for
    nothing. *)
Lemma ask_keys_again (mid pre post : list (string * list Question))
    (self : Questionnaire) (s : script)
    (self' : Questionnaire) (rest : script) :
  questions self = (pre ++ mid ++ post)%list ->
  NoDup (keys_of (pre ++ mid ++ post)) ->
  refs_earlier [] (pre ++ mid ++ post) = true ->
  ask_keys (keys_of mid) self s = Ret (true, self', rest) ->
  forall s2, ask_keys (keys_of mid) self' s2 = Ret (true, self', s2).
Proof.
  revert pre self s; induction mid as [|[key variants] mid IH];
    intros pre self s Hreg Hnd Hrefs Hrun s2; [reflexivity|].
  destruct (ask_keys_appends _ _ _ _ _ Hrun) as (Hq' & added & Hc' & Hi').
  simpl app in Hreg, Hnd, Hrefs.
  assert (Hfresh : ~ In key (keys_of pre) /\
                   forall k, In k (keys_of pre) ->
                             ~ In k (key :: keys_of mid)).
  { unfold keys_of in Hnd; rewrite map_app in Hnd; simpl in Hnd.
    split.
    - apply NoDup_remove_2 in Hnd; intros Hin; apply Hnd.
      apply in_or_app; now left.
    - intros k Hk Hin.
      apply (NoDup_app_apart _ _ k Hnd Hk).
      destruct Hin as [<-|Hin]; [now left|right].
      rewrite map_app; apply in_or_app; now left. }
  destruct Hfresh as [Hkey Hdisj].
  (* the variant chosen for [key] is the same in both states *)
  assert (Hsame : which_question key self' = which_question key self).
  { unfold which_question; rewrite Hq', Hreg.
    unfold lookup; rewrite (assoc_middle _ _ _ _ Hkey); simpl.
    apply (first_satisfied_agree self' self (keys_of pre)).
    - exact (refs_earlier_split [] pre (mid ++ post) key variants Hrefs).
    - intros k Hk; rewrite Hc'; apply assoc_app_notin.
      intros Hin; apply (Hdisj k Hk); now apply Hi'. }
  simpl in Hrun |- *; rewrite Hsame.
  apply bind_ret_inv in Hrun as (question & Hw & Hrun); rewrite Hw; simpl.
  assert (Hpre : questions self =
                 ((pre ++ [(key, variants)]) ++ mid ++ post)%list)
    by now rewrite <- app_assoc.
  assert (Hnd' : NoDup (keys_of ((pre ++ [(key, variants)]) ++ mid ++ post)))
    by now rewrite <- app_assoc.
  assert (Hrefs' : refs_earlier []
                     ((pre ++ [(key, variants)]) ++ mid ++ post) = true)
    by now rewrite <- app_assoc.
  destruct question as [q|];
    [|now apply (IH (pre ++ [(key, variants)])%list self s)].
  destruct (mem key (choices self)) eqn:Hk; simpl in Hrun.
  - assert (Hk' : mem key (choices self') = true).
    { unfold mem in *; rewrite Hc'.
      destruct (assoc key (choices self)) as [a|] eqn:Ha; [|discriminate].
      now rewrite (assoc_app_some _ _ _ added Ha). }
    rewrite Hk'; simpl.
    now apply (IH (pre ++ [(key, variants)])%list self s).
  - apply bind_ret_inv in Hrun as ([[ok self1] s1] & Hp & Hrun).
    destruct ok; simpl in Hrun; [|discriminate].
    apply prompt_ret_inv in Hp as (Hq1 & Hans).
    destruct (Hans eq_refl) as (answer & ->).
    destruct (ask_keys_appends _ _ _ _ _ Hrun) as (_ & added1 & Hc1 & _).
    assert (Hk' : mem key (choices self') = true).
    { unfold mem; rewrite Hc1.
      rewrite (assoc_app_some key answer); trivial.
      apply assoc_setitem. }
    rewrite Hk'; simpl.
    apply (IH (pre ++ [(key, variants)])%list (set_choice key answer self) s1);
      trivial.
Qed.

Lemma ask_keys_app (keys1 keys2 : list string) (self : Questionnaire)
    (s : script) :
  ask_keys (keys1 ++ keys2) self s =
  (do (ok, self', rest) <- ask_keys keys1 self s;
   if negb ok then Ret (false, self', rest) else ask_keys keys2 self' rest).
Proof.
  revert self s; induction keys1 as [|key keys1 IH]; intros self s; simpl;
    trivial.
  destruct (which_question key self) as [[q|]| |]; simpl; trivial.
  destruct (mem key (choices self)); simpl; trivial.
  destruct (prompt key (_options q) "" (_multiple q) "=>" self s)
    as [[[ok self1] s1]| |]; simpl; trivial.
  destruct ok; simpl; trivial.
Qed.

(** C6, a completed pass is idempotent.  With distinct keys in the registry
    (an ordered dict has no others) and every condition naming only keys
    registered before its own, a pass of [ask_questions] that ran to its end
    without a back step leaves a state from which a further pass returns
    [True] with the same state and with the script untouched: it prompts
    for nothing. *)
Theorem ask_questions_idempotent (self : Questionnaire) (s : script)
    (self' : Questionnaire) (rest : script) :
  NoDup (keys_of (questions self)) ->
  refs_earlier [] (questions self) = true ->
  ask_questions self s = Ret (true, self', rest) ->
  forall s2, ask_questions self' s2 = Ret (true, self', s2).
Proof.
  unfold ask_questions; intros Hnd Hrefs Hrun s2.
  destruct (ask_keys_appends _ _ _ _ _ Hrun) as (Hq & _).
  rewrite Hq.
  apply (ask_keys_again (questions self) [] [] self s self' rest);
    now rewrite ?app_nil_r.
Qed.

Lemma ask_questions_idempotent_witness :
  ask_questions answered [] = Ret (true, answered, []).
Proof.
  refine (ask_questions_idempotent activities
            [Choose 2; Choose 0; Choose 2; Choose 3]%nat answered [] _ _ _ []).
  - repeat constructor; simpl; intuition discriminate.
  - reflexivity.
  - reflexivity.
Defined.

(** ** The loop of [run] *)

Lemma pick_loop_consumes (pool acc : list string)
    (title indicator ALL DONE : string) (s : script)
    (out : value * Z) (rest : script) :
  pick_loop pool acc title indicator ALL DONE s = Ret (out, rest) ->
  (List.length rest < List.length s)%nat.
Proof.
  revert pool acc; induction s as [|r s' IH]; intros pool acc; simpl;
    (destruct (Picker pool) as [[]| |]; simpl; [|discriminate..]);
    [discriminate|].
  destruct (picker_start pool r) as [[option j]|]; [|discriminate].
  destruct (j <? 0); [intros [= _ <-]; lia|].
  destruct (py_eq option (VStr ALL)); [intros [= _ <-]; lia|].
  destruct (py_eq option (VStr DONE)); [intros [= _ <-]; lia|].
  destruct option; try discriminate.
  destruct (list_remove s pool); simpl; try discriminate.
  intros H; apply IH in H; lia.
Qed.

Lemma _pick_consumes (multiple : bool) (options : list string)
    (title indicator : string) (s : script)
    (out : value * Z) (rest : script) :
  _pick multiple options title indicator s = Ret (out, rest) ->
  (List.length rest < List.length s)%nat.
Proof.
  unfold _pick; destruct multiple; [apply pick_loop_consumes|].
  unfold back_pick.
  destruct (Picker options) as [[]| |]; simpl; try discriminate.
  destruct s as [|r s']; [discriminate|].
  destruct (picker_start options r); [|discriminate].
  intros [= _ <-]; simpl; lia.
Qed.

Lemma prompt_consumes (key : string) (options : list string)
    (prompt_ : string) (multiple : bool) (indicator : string)
    (self : Questionnaire) (s : script)
    (ok : bool) (self' : Questionnaire) (rest : script) :
  prompt key options prompt_ multiple indicator self s =
    Ret (ok, self', rest) ->
  (List.length rest < List.length s)%nat.
Proof.
  unfold prompt; intros H.
  apply bind_ret_inv in H as (shown & _ & H).
  apply bind_ret_inv in H as ([[answer i] rest'] & Hp & H).
  apply _pick_consumes in Hp.
  destruct (i <? 0).
  - rewrite rewind_written in H; simpl in H; now injection H as _ _ <-.
  - now injection H as _ _ <-.
Qed.

(** A pass never gives responses back, and one that ends on a back step has
    read at least one. *)
Lemma ask_keys_consumes (keys : list string) (self : Questionnaire)
    (s : script) (ok : bool) (self' : Questionnaire) (rest : script) :
  ask_keys keys self s = Ret (ok, self', rest) ->
  (List.length rest <= List.length s)%nat /\
  (ok = false -> (List.length rest < List.length s)%nat).
Proof.
  revert self s; induction keys as [|key keys IH]; intros self s; simpl.
  - intros [= <- _ <-]; split; [lia|discriminate].
  - intros H; apply bind_ret_inv in H as (question & _ & H).
    destruct question as [q|]; [|exact (IH _ _ H)].
    destruct (mem key (choices self)); simpl in H; [exact (IH _ _ H)|].
    apply bind_ret_inv in H as ([[ok1 self1] s1] & Hp & H).
    apply prompt_consumes in Hp.
    destruct ok1; simpl in H.
    + apply IH in H as [Hle Hlt]; split; [lia|].
      intros E; specialize (Hlt E); lia.
    + injection H as <- _ <-; split; [lia|trivial].
Qed.

(** [run]'s bound on the passes is never the reason it stops: any two
    bounds above the length of the script give the same outcome. *)
Lemma run_passes_fuel (fuel1 fuel2 : nat) (self : Questionnaire) (s : script) :
  (List.length s < fuel1)%nat -> (List.length s < fuel2)%nat ->
  run_passes fuel1 self s = run_passes fuel2 self s.
Proof.
  revert fuel2 self s; induction fuel1 as [|fuel1 IH];
    intros [|fuel2] self s H1 H2; try lia; simpl.
  destruct (ask_questions self s) as [[[ok self'] rest]| |] eqn:Hpass;
    simpl; trivial.
  destruct ok; simpl; trivial.
  apply ask_keys_consumes in Hpass as [_ Hlt].
  specialize (Hlt eq_refl); apply IH; lia.
Qed.

(** ** The example client's scenario *)

Example run_round_trip :
  run activities [Choose 2; Choose 0; Choose 2; Choose 3]%nat =
  Ret ([("day", VStr "saturday"); ("time", VStr "morning");
        ("activities", VList ["watch footy match"])], []).
Proof. reflexivity. Qed.

(** Going back at [activities] without a selection drops the answer to
    [time], which the next pass asks again. *)
Example run_back_one_step :
  run activities
      [Choose 2; Choose 0; GoBack; Choose 1; Choose 2; Choose 3]%nat =
  Ret ([("day", VStr "saturday"); ("time", VStr "night");
        ("activities", VList ["go to the cantina"])], []).
Proof. reflexivity. Qed.

(** Going back at [activities] with a selection made asks [activities]
    again and keeps the answer to [time]. *)
Example run_back_partial :
  run activities
      [Choose 2; Choose 0; Choose 1; GoBack; Choose 3; Choose 3]%nat =
  Ret ([("day", VStr "saturday"); ("time", VStr "morning");
        ("activities", VList ["walk the dog"])], []).
Proof. reflexivity. Qed.

Example which_question_resolution :
  let at_ day time :=
    {| questions := activities_registry;
       choices := [("day", VStr day); ("time", VStr time)] |} in
  which_question "activities" (at_ "saturday" "morning") =
    Ret (nth_error activities_variants 1) /\
  which_question "activities" (at_ "monday" "morning") =
    Ret (nth_error activities_variants 2) /\
  which_question "activities" (at_ "saturday" "night") =
    Ret (nth_error activities_variants 0) /\
  which_question "activities" (at_ "friday" "night") =
    Ret (nth_error activities_variants 0).
Proof. repeat split. Qed.

(** The registry of the example is what the calls of [add_question] build. *)
Example activities_built :
  fold_left (fun self q => fst (add_question q self))
    (day_question :: time_question :: activities_variants)
    Questionnaire_init = activities.
Proof. reflexivity. Qed.

(** * Further properties of the module *)

(** ** What the picker can return *)

Lemma list_remove_in (x : string) (l : list string) :
  In x l -> exists l', list_remove x l = Ret l' /\ Permutation l (x :: l').
Proof.
  induction l as [|y l IH]; simpl; [intros []|].
  destruct (String.eqb_spec y x) as [->|Hne].
  - intros _; exists l; split; [reflexivity|apply Permutation_refl].
  - intros [E|Hin]; [contradiction|].
    destruct (IH Hin) as (l' & -> & Hp); simpl.
    exists (y :: l'); split; trivial.
    apply perm_trans with (y :: x :: l'); [now constructor|constructor].
Qed.

Lemma picker_start_index (pool : list string) (r : response)
    (option : value) (i : Z) :
  picker_start pool r = Some (option, i) ->
  (r = GoBack /\ option = VNone /\ i = -1) \/
  (exists n o, r = Choose n /\ nth_error pool n = Some o /\
               option = VStr o /\ i = Z.of_nat n).
Proof.
  destruct r as [|n]; simpl.
  - intros [= <- <-]; now left.
  - destruct (nth_error pool n) as [o|] eqn:Hn; [|discriminate].
    intros [= <- <-]; right; exists n, o; auto.
Qed.

(** With the marker in the pool the loop never raises: the pool is never
    empty, and what the user lands on is in the pool, so [_options.remove]
    finds it. *)
Lemma pick_loop_no_exc (pool acc : list string)
    (title indicator ALL DONE : string) (s : script) (e : exn) :
  In ALL pool ->
  pick_loop pool acc title indicator ALL DONE s <> Exc e.
Proof.
  revert pool acc; induction s as [|r s' IH]; intros pool acc Hall; simpl;
    (rewrite Picker_nonempty by (intros ->; contradiction)); simpl;
    [discriminate|].
  destruct (picker_start pool r) as [[option i]|] eqn:Hr; [|discriminate].
  destruct (i <? 0) eqn:Hi; [discriminate|].
  destruct (py_eq option (VStr ALL)) eqn:Ha; [discriminate|].
  destruct (py_eq option (VStr DONE)); [discriminate|].
  apply picker_start_index in Hr
    as [(_ & -> & ->)|(n & o & _ & Hn & -> & _)].
  - discriminate Hi.
  - simpl in Ha; apply String.eqb_neq in Ha.
    destruct (list_remove_in o pool (nth_error_In _ _ Hn)) as (l' & -> & Hp).
    simpl; apply IH.
    apply (Permutation_in _ Hp) in Hall as [E|Hin]; [congruence|trivial].
Qed.

(** The picker raises only in single mode, on an empty option list. *)
Lemma _pick_exc (multiple : bool) (options : list string)
    (title indicator : string) (s : script) (e : exn) :
  _pick multiple options title indicator s = Exc e <->
  multiple = false /\ options = [] /\ e = ValueError.
Proof.
  unfold _pick, back_pick_multiple; destruct multiple.
  - split; [|intros [? _]; discriminate].
    intros H; exfalso; revert H; apply pick_loop_no_exc; now left.
  - unfold back_pick; destruct options as [|o options]; simpl.
    + split; [intros [= <-]; auto|now intros (_ & _ & ->)].
    + split; [|intros (_ & ? & _); discriminate].
      destruct s as [|r s']; [discriminate|].
      destruct (picker_start (o :: options) r); discriminate.
Qed.

(** What the loop returns: the marker list, or the selections it started
    with followed by entries taken out of the pool, none of them a
    sentinel. *)
Lemma pick_loop_picked (pool acc : list string)
    (title indicator ALL DONE : string) (s : script)
    (picked : list string) (i : Z) (rest : script) :
  pick_loop pool acc title indicator ALL DONE s =
    Ret ((VList picked, i), rest) ->
  (picked = [ALL] /\ 0 <= i) \/
  (exists more remaining,
      picked = (acc ++ more)%list /\ Permutation pool (more ++ remaining) /\
      ~ In ALL more /\ ~ In DONE more).
Proof.
  revert pool acc; induction s as [|r s' IH]; intros pool acc; simpl;
    (destruct (Picker pool) as [[]| |]; simpl; [|discriminate..]);
    [discriminate|].
  assert (Hstay : exists more remaining,
             acc = (acc ++ more)%list /\ Permutation pool (more ++ remaining) /\
             ~ In ALL more /\ ~ In DONE more).
  { exists [], pool; rewrite app_nil_r; repeat split; auto. }
  destruct (picker_start pool r) as [[option i']|] eqn:Hr; [|discriminate].
  destruct (i' <? 0) eqn:Hi; [intros [= <- _ _]; now right|].
  destruct (py_eq option (VStr ALL)) eqn:Hall;
    [intros [= <- <- _]; left; split; trivial; now apply Z.ltb_ge|].
  destruct (py_eq option (VStr DONE)) eqn:Hdone;
    [intros [= <- _ _]; now right|].
  apply picker_start_index in Hr
    as [(_ & -> & ->)|(n & o & _ & Hn & -> & _)]; [discriminate Hi|].
  simpl in Hall, Hdone.
  apply String.eqb_neq in Hall, Hdone.
  destruct (list_remove_in o pool (nth_error_In _ _ Hn)) as (l' & -> & Hp).
  simpl; intros H; apply IH in H
    as [?|(more & remaining & -> & Hp' & Ha & Hd)]; [now left|right].
  exists (o :: more), remaining; rewrite <- app_assoc; simpl; repeat split.
  - eapply perm_trans; [exact Hp|now constructor].
  - intros [E|Hin]; [congruence|contradiction].
  - intros [E|Hin]; [congruence|contradiction].
Qed.

Lemma count_occ_sentinel_free (ALL DONE x : string) (options : list string) :
  x <> ALL -> x <> DONE ->
  count_occ string_dec ([ALL] ++ options ++ [DONE]) x =
  count_occ string_dec options x.
Proof.
  intros Ha Hd; simpl.
  destruct (string_dec ALL x); [congruence|].
  rewrite count_occ_app; simpl.
  destruct (string_dec DONE x); [congruence|lia].
Qed.

(** X3, what a multiple selection is made of.  [back_pick_multiple] returns
    a list: the one-element marker list after "all", or else selections that
    are options of the call, never a sentinel, and each taken no more often
    than the options hold it, so that distinct options give distinct
    selections. *)
Theorem back_pick_multiple_selection (options : list string)
    (title indicator ALL DONE : string) (s : script)
    (answer : value) (i : Z) (rest : script) :
  back_pick_multiple options title indicator ALL DONE s =
    Ret ((answer, i), rest) ->
  exists picked,
    answer = VList picked /\
    ((picked = [ALL] /\ 0 <= i) \/
     (incl picked options /\ ~ In ALL picked /\ ~ In DONE picked /\
      (forall x, (count_occ string_dec picked x
                  <= count_occ string_dec options x)%nat) /\
      (NoDup options -> NoDup picked))).
Proof.
  unfold back_pick_multiple; intros H.
  destruct (pick_loop_list _ _ _ _ _ _ _ _ _ _ H) as [picked ->].
  exists picked; split; trivial.
  apply pick_loop_picked in H
    as [?|(more & remaining & E & Hp & Ha & Hd)]; [now left|right].
  simpl in E; subst more.
  assert (Hcount : forall x, (count_occ string_dec picked x
                              <= count_occ string_dec options x)%nat).
  { intros x; destruct (in_dec string_dec x picked) as [Hin|Hout].
    - assert (x <> ALL /\ x <> DONE) as [Hxa Hxd]
        by (split; intros ->; contradiction).
      rewrite <- (count_occ_sentinel_free ALL DONE x options Hxa Hxd).
      rewrite (proj1 (Permutation_count_occ string_dec _ _) Hp x).
      rewrite count_occ_app; lia.
    - apply (count_occ_not_In string_dec) in Hout; lia. }
  repeat apply conj; trivial.
  - intros x Hx; apply (count_occ_In string_dec) in Hx.
    apply (count_occ_In string_dec); specialize (Hcount x); lia.
  - intros Hnd; apply (NoDup_count_occ string_dec); intros x.
    pose proof (proj1 (NoDup_count_occ string_dec options) Hnd x).
    specialize (Hcount x); lia.
Qed.

Lemma back_pick_multiple_selection_witness :
  exists picked,
    VList ["go to work"; "eat granola"] = VList picked /\
    ((picked = ["all"] /\ 0 <= 2) \/
     (incl picked ["eat granola"; "get dressed"; "go to work"] /\
      ~ In "all" picked /\ ~ In "done..." picked /\
      (forall x, (count_occ string_dec picked x
                  <= count_occ string_dec
                       ["eat granola"; "get dressed"; "go to work"] x)%nat) /\
      (NoDup ["eat granola"; "get dressed"; "go to work"] -> NoDup picked))).
Proof.
  apply (back_pick_multiple_selection
           ["eat granola"; "get dressed"; "go to work"] "" "=>" "all"
           "done..." [Choose 3; Choose 1; Choose 2]%nat _ 2 []).
  reflexivity.
Defined.

(** ** Exceptions of [prompt] and of a pass *)

Lemma show_choices_exc (self : Questionnaire) (s : string) (e : exn) :
  show_choices self s = Exc e <-> questions self = [] /\ e = ValueError.
Proof.
  unfold show_choices; destruct (questions self) as [|[k v] qs]; simpl.
  - split; [intros [= <-]; auto|intros [_ ->]; reflexivity].
  - destruct (max_len (keys_of qs)); simpl;
      (split; [discriminate|intros [? _]; discriminate]).
Qed.

Lemma prompt_exc (key : string) (options : list string)
    (prompt_ : string) (multiple : bool) (indicator : string)
    (self : Questionnaire) (s : script) (e : exn) :
  prompt key options prompt_ multiple indicator self s = Exc e <->
  e = ValueError /\
  (questions self = [] \/ (multiple = false /\ options = [])).
Proof.
  destruct (questions self) as [|entry registry] eqn:Hq.
  - assert (Hs : show_choices self "" = Exc ValueError)
      by (apply show_choices_exc; auto).
    unfold prompt; rewrite Hs; simpl.
    split; [intros [= <-]; auto|intros [-> _]; reflexivity].
  - assert (Hne : questions self <> []) by (rewrite Hq; discriminate).
    destruct (show_choices_ret self "" Hne) as [shown Hs].
    unfold prompt; rewrite Hs; simpl.
    match goal with
    | |- context [_pick ?m ?o ?t ?i ?r] =>
        destruct (_pick m o t i r) as [[[answer j] rest]| |] eqn:Hp
    end; simpl.
    + split.
      * destruct (j <? 0); [|discriminate].
        rewrite rewind_written; discriminate.
      * intros (_ & [?|[-> ->]]); [discriminate|].
        unfold _pick, back_pick in Hp; discriminate.
    + apply _pick_exc in Hp as (-> & -> & ->).
      split; [intros [= <-]; auto|now intros [-> _]].
    + split; [discriminate|].
      intros (_ & [?|[-> ->]]); [discriminate|].
      unfold _pick, back_pick in Hp; discriminate.
Qed.

(** X1, the exceptions of [prompt].  [prompt] raises exactly when no
    question is registered ([max] over the empty key list in
    [show_choices]) or when it is asked to show a single-select picker with
    an empty option list (refused by the picker), and both times it is a
    [ValueError]; otherwise it never raises, whatever the user does. *)
Theorem prompt_raises_iff_empty (key : string) (options : list string)
    (prompt_ : string) (multiple : bool) (indicator : string)
    (self : Questionnaire) (s : script) (e : exn) :
  prompt key options prompt_ multiple indicator self s = Exc e <->
  e = ValueError /\
  (questions self = [] \/ (multiple = false /\ options = [])).
Proof. apply prompt_exc. Qed.

Lemma prompt_raises_iff_empty_witness :
  prompt "day" [] "" false "=>" activities [Choose 0] = Exc ValueError.
Proof.
  apply (proj2 (prompt_raises_iff_empty "day" [] "" false "=>"
                  activities [Choose 0%nat] ValueError)).
  split; [reflexivity|right; split; reflexivity].
Defined.

Lemma assoc_some_in {A : Type} (k : string) (a : A) (d : list (string * A)) :
  assoc k d = Some a -> In (k, a) d.
Proof.
  induction d as [|[k' a'] d IH]; simpl; [discriminate|].
  destruct (String.eqb_spec k' k) as [->|Hne].
  - intros [= ->]; now left.
  - intros H; right; auto.
Qed.

Lemma ask_keys_questions (keys : list string) (self : Questionnaire)
    (s : script) (ok : bool) (self' : Questionnaire) (rest : script) :
  ask_keys keys self s = Ret (ok, self', rest) ->
  questions self' = questions self.
Proof.
  revert self s; induction keys as [|key keys IH]; intros self s; simpl.
  - now intros [= _ <- _].
  - intros H; apply bind_ret_inv in H as (question & _ & H).
    destruct question as [q|]; [|exact (IH _ _ H)].
    destruct (mem key (choices self)); simpl in H; [exact (IH _ _ H)|].
    apply bind_ret_inv in H as ([[ok1 self1] s1] & Hp & H).
    apply prompt_ret_inv in Hp as [Hq1 _].
    destruct ok1; simpl in H.
    + rewrite <- Hq1; exact (IH _ _ H).
    + now injection H as _ <- _.
Qed.

(** Where a pass raises: at some key, reached in the state the keys before
    it left, either in [which_question] or in the prompt. *)
Lemma ask_keys_exc (keys : list string) (self : Questionnaire) (s : script)
    (e : exn) :
  ask_keys keys self s = Exc e ->
  exists before key after self' s',
    keys = (before ++ key :: after)%list /\
    ask_keys before self s = Ret (true, self', s') /\
    (which_question key self' = Exc e \/
     exists q,
       which_question key self' = Ret (Some q) /\
       mem key (choices self') = false /\
       prompt key (_options q) "" (_multiple q) "=>" self' s' = Exc e).
Proof.
  revert self s; induction keys as [|key keys IH]; intros self s; simpl;
    [discriminate|].
  assert (Hnext : forall self1 s1,
             ask_keys [key] self s = Ret (true, self1, s1) ->
             ask_keys keys self1 s1 = Exc e ->
             exists before key0 after self' s',
               key :: keys = (before ++ key0 :: after)%list /\
               ask_keys before self s = Ret (true, self', s') /\
               (which_question key0 self' = Exc e \/
                exists q,
                  which_question key0 self' = Ret (Some q) /\
                  mem key0 (choices self') = false /\
                  prompt key0 (_options q) "" (_multiple q) "=>" self' s'
                  = Exc e)).
  { intros self1 s1 Hone H.
    apply IH in H as (before & k & after & self' & s' & -> & Hb & Hc).
    exists (key :: before), k, after, self', s'; repeat split; trivial.
    change (key :: before) with ([key] ++ before)%list.
    rewrite ask_keys_app, Hone; exact Hb. }
  destruct (which_question key self) as [[q|]| |] eqn:Hw; simpl.
  - destruct (mem key (choices self)) eqn:Hk; simpl.
    + apply Hnext; cbn [ask_keys]; rewrite Hw; cbn [bind]; now rewrite Hk.
    + destruct (prompt key (_options q) "" (_multiple q) "=>" self s)
        as [[[ok self1] s1]| |] eqn:Hp; simpl; try discriminate.
      * destruct ok; simpl; [|discriminate].
        apply Hnext; cbn [ask_keys]; rewrite Hw; cbn [bind].
        rewrite Hk; cbn [negb]; now rewrite Hp.
      * intros [= <-].
        exists [], key, keys, self, s; repeat split; trivial.
        right; exists q; auto.
  - apply Hnext; cbn [ask_keys]; now rewrite Hw.
  - intros [= <-].
    exists [], key, keys, self, s; repeat split; trivial; now left.
  - discriminate.
Qed.

Lemma which_question_exc (key : string) (self : Questionnaire) (e : exn) :
  In key (keys_of (questions self)) ->
  which_question key self = Exc e ->
  exists variants q,
    assoc key (questions self) = Some variants /\ In q variants /\
    check_condition (_condition q) self = Exc e.
Proof.
  intros Hin; unfold which_question, lookup.
  destruct (assoc key (questions self)) as [variants|] eqn:Ha; simpl.
  - intros H; apply first_satisfied_exc in H
      as (before & p & after & -> & _ & Hc).
    exists (before ++ p :: after)%list, p; repeat split; trivial.
    apply in_or_app; right; now left.
  - now apply assoc_none_notin in Ha.
Qed.

Lemma restarts_questions (self : Questionnaire) (s : script)
    (self' : Questionnaire) (s' : script) :
  restarts self s self' s' -> questions self' = questions self.
Proof.
  induction 1 as [|self s self1 s1 self2 s2 Hp _ IH]; trivial.
  rewrite IH; exact (ask_keys_questions _ _ _ _ _ _ Hp).
Qed.

Lemma run_passes_exc (fuel : nat) (self : Questionnaire) (s : script)
    (e : exn) :
  run_passes fuel self s = Exc e ->
  exists self0 s0,
    restarts self s self0 s0 /\ ask_questions self0 s0 = Exc e.
Proof.
  revert self s; induction fuel as [|fuel IH]; intros self s; simpl;
    [discriminate|].
  destruct (ask_questions self s) as [[[ok self1] s1]| |] eqn:Hp; simpl;
    try discriminate.
  - destruct ok; simpl; [discriminate|].
    intros H; apply IH in H as (self0 & s0 & Hr & He).
    exists self0, s0; split; trivial.
    eapply restarts_pass; eauto.
  - intros [= <-]; exists self, s; split; [constructor|exact Hp].
Qed.

(** X2, where the exceptions of a run come from.  Whatever the user does,
    an exception out of [run] is raised in a pass of the run, at a
    registered key, in the state the pass has reached there: either by the
    evaluation of the condition of a variant of that key, or, as a
    [ValueError], by the picker refusing the empty option list of the
    single question chosen for that key.  The lookups of the loop, the
    multiple picker and the back steps raise nothing. *)
Theorem run_exceptions (self : Questionnaire) (s : script) (e : exn) :
  run self s = Exc e ->
  exists self0 s0 before key after self' s',
    restarts {| questions := questions self; choices := [] |} s self0 s0 /\
    keys_of (questions self) = (before ++ key :: after)%list /\
    ask_keys before self0 s0 = Ret (true, self', s') /\
    questions self' = questions self /\
    ((exists variants q,
         assoc key (questions self) = Some variants /\ In q variants /\
         check_condition (_condition q) self' = Exc e) \/
     (exists q,
         which_question key self' = Ret (Some q) /\
         mem key (choices self') = false /\
         _multiple q = false /\ _options q = [] /\ e = ValueError)).
Proof.
  unfold run; intros H.
  apply run_passes_exc in H as (self0 & s0 & Hr & He).
  assert (Hq0 := restarts_questions _ _ _ _ Hr); simpl in Hq0.
  unfold ask_questions in He.
  apply ask_keys_exc in He
    as (before & key & after & self' & s' & Hk & Hb & Hc).
  assert (Hq := ask_keys_questions _ _ _ _ _ _ Hb).
  exists self0, s0, before, key, after, self', s'.
  repeat apply conj; trivial; [congruence|congruence|].
  destruct Hc as [Hw|(q & Hw & Hm & Hp)].
  - left; rewrite <- Hq0, <- Hq.
    apply which_question_exc; trivial.
    rewrite Hq, Hk; apply in_or_app; right; now left.
  - right; exists q.
    apply prompt_exc in Hp as (-> & [Hempty|[Hm' Ho]]); auto.
    unfold which_question, lookup in Hw; rewrite Hempty in Hw; discriminate.
Qed.

Lemma run_exceptions_witness :
  exists self0 s0 before key after self' s',
    restarts {| questions := questions activities_alone; choices := [] |}
             [Choose 0%nat] self0 s0 /\
    keys_of (questions activities_alone) = (before ++ key :: after)%list /\
    ask_keys before self0 s0 = Ret (true, self', s') /\
    questions self' = questions activities_alone /\
    ((exists variants q,
         assoc key (questions activities_alone) = Some variants /\
         In q variants /\
         check_condition (_condition q) self' = Exc (KeyError "time")) \/
     (exists q,
         which_question key self' = Ret (Some q) /\
         mem key (choices self') = false /\
         _multiple q = false /\ _options q = [] /\
         KeyError "time" = ValueError)).
Proof.
  apply (run_exceptions activities_alone [Choose 0%nat] (KeyError "time")).
  reflexivity.
Defined.

(** ** Composition of back steps *)

Lemma go_back_go_back (n m : Z) (self : Questionnaire) :
  0 <= n -> 0 <= m ->
  go_back n (go_back m self) = go_back (n + m + 1) self.
Proof.
  intros Hn Hm; unfold go_back; simpl; f_equal.
  rewrite length_firstn, firstn_firstn; f_equal; lia.
Qed.

Lemma go_back_negative (n : Z) (self : Questionnaire) :
  n < 0 -> go_back n self = self.
Proof.
  intros Hn; destruct self as [qs cs]; unfold go_back; simpl; f_equal.
  apply firstn_all2; lia.
Qed.

(** X4, back steps add up.  For non-negative counts,
    [go_back(n)] after [go_back(m)] is [go_back(n + m + 1)]: every call
    drops one entry more than its argument.  A negative count drops
    nothing, and on no recorded answer every count leaves the state as it
    is. *)
Theorem go_back_composes (n m : Z) (self : Questionnaire) :
  (0 <= n -> 0 <= m ->
   go_back n (go_back m self) = go_back (n + m + 1) self) /\
  (n < 0 -> go_back n self = self) /\
  (choices self = [] -> go_back n self = self).
Proof.
  repeat apply conj.
  - apply go_back_go_back.
  - apply go_back_negative.
  - destruct self as [qs cs]; simpl; intros ->.
    unfold go_back; simpl; now rewrite firstn_nil.
Qed.

Lemma go_back_composes_witness :
  go_back 0 (go_back 0 three_answers) = go_back 1 three_answers.
Proof.
  apply (proj1 (go_back_composes 0 0 three_answers)); lia.
Defined.

(** ** A successful prompt *)

Lemma assoc_setitem_other {A : Type} (k k' : string) (v : A)
    (d : list (string * A)) :
  k' <> k -> assoc k' (setitem k v d) = assoc k' d.
Proof.
  intros Hne; induction d as [|[k0 a] d IH]; simpl.
  - destruct (String.eqb_spec k k'); congruence.
  - destruct (String.eqb_spec k0 k) as [->|Hk]; simpl.
    + destruct (String.eqb_spec k k'); congruence.
    + now rewrite IH.
Qed.

(** What the single picker returns on a selection: an option of the call. *)
Lemma back_pick_selected (options : list string) (title indicator : string)
    (s : script) (answer : value) (i : Z) (rest : script) :
  back_pick options title indicator s = Ret ((answer, i), rest) ->
  0 <= i ->
  exists n o,
    i = Z.of_nat n /\ nth_error options n = Some o /\ answer = VStr o.
Proof.
  unfold back_pick.
  destruct (Picker options) as [[]| |]; simpl; try discriminate.
  destruct s as [|r s']; [discriminate|].
  destruct (picker_start options r) as [[option j]|] eqn:Hr; [|discriminate].
  intros [= -> -> _] Hi.
  apply picker_start_index in Hr as [(_ & _ & ->)|(n & o & _ & Hn & -> & ->)];
    [lia|eauto].
Qed.

(** X5, a selection is recorded under its key.  When the picker returns a
    selection (a non-negative index), [prompt] returns [True] having read
    exactly the picker's responses, and afterwards the key holds the
    selection, every other key holds what it held, and the order of the keys
    is the old one with a new key at the end. *)
Theorem prompt_records_answer (key : string) (options : list string)
    (prompt_ : string) (multiple : bool) (indicator title : string)
    (self : Questionnaire) (s : script)
    (answer : value) (i : Z) (rest : script) :
  questions self <> [] ->
  _pick multiple options title indicator s = Ret ((answer, i), rest) ->
  0 <= i ->
  exists self',
    prompt key options prompt_ multiple indicator self s =
      Ret (true, self', rest) /\
    questions self' = questions self /\
    lookup key (choices self') = Ret answer /\
    (forall k, k <> key ->
               assoc k (choices self') = assoc k (choices self)) /\
    keys_of (choices self') =
      (if mem key (choices self) then keys_of (choices self)
       else (keys_of (choices self) ++ [key])%list).
Proof.
  intros Hq Hp Hi; exists (set_choice key answer self).
  repeat apply conj; trivial.
  - eapply prompt_answered; eauto.
  - unfold lookup; simpl; now rewrite assoc_setitem.
  - intros k Hk; now apply assoc_setitem_other.
  - apply keys_setitem.
Qed.

Lemma prompt_records_answer_witness :
  exists self',
    prompt "time" ["morning"; "night"] "" false "=>" day_only [Choose 1] =
      Ret (true, self', []) /\
    lookup "time" (choices self') = Ret (VStr "night").
Proof.
  destruct (prompt_records_answer "time" ["morning"; "night"] "" false "=>"
              "" day_only [Choose 1%nat] (VStr "night") 1 [])
    as (self' & Hp & _ & Hl & _).
  - discriminate.
  - reflexivity.
  - lia.
  - now exists self'.
Defined.

(** ** The keys a completed pass records *)

(** Answers recorded for keys that are not registered before [key] do not
    change the variant chosen for [key]. *)
Lemma which_question_later_answers
    (pre post : list (string * list Question))
    (key : string) (variants : list Question)
    (self self' : Questionnaire) (added : list (string * value)) :
  questions self = (pre ++ (key, variants) :: post)%list ->
  NoDup (keys_of (questions self)) ->
  refs_earlier [] (questions self) = true ->
  questions self' = questions self ->
  choices self' = (choices self ++ added)%list ->
  (forall k, In k (keys_of added) -> ~ In k (keys_of pre)) ->
  which_question key self' = which_question key self.
Proof.
  intros Hreg Hnd Hrefs Hq Hc Hlater.
  rewrite Hreg in Hnd, Hrefs.
  assert (Hkey : ~ In key (keys_of pre)).
  { unfold keys_of in Hnd; rewrite map_app in Hnd; simpl in Hnd.
    apply NoDup_remove_2 in Hnd; intros Hin; apply Hnd.
    apply in_or_app; now left. }
  unfold which_question; rewrite Hq, Hreg.
  unfold lookup; rewrite (assoc_middle _ _ _ _ Hkey); simpl.
  apply (first_satisfied_agree self' self (keys_of pre)).
  - exact (refs_earlier_split [] pre post key variants Hrefs).
  - intros k Hk; rewrite Hc; apply assoc_app_notin.
    intros Hin; exact (Hlater k Hin Hk).
Qed.

Lemma mem_app_other {A : Type} (k : string) (d e : list (string * A)) :
  ~ In k (keys_of e) -> mem k (d ++ e)%list = mem k d.
Proof.
  intros Hk; unfold mem; now rewrite assoc_app_notin.
Qed.

(** Over a stretch [mid] of the registry, a pass that runs to its end
    appends answers for exactly the keys of [mid] that resolve to a variant
    in the final state and had no answer, in registration order. *)
Lemma ask_keys_recorded (mid pre post : list (string * list Question))
    (self : Questionnaire) (s : script)
    (self' : Questionnaire) (rest : script) :
  questions self = (pre ++ mid ++ post)%list ->
  NoDup (keys_of (questions self)) ->
  refs_earlier [] (questions self) = true ->
  ask_keys (keys_of mid) self s = Ret (true, self', rest) ->
  exists added,
    choices self' = (choices self ++ added)%list /\
    keys_of added =
      filter (fun k => resolves k self' && negb (mem k (choices self)))
             (keys_of mid).
Proof.
  revert pre self s; induction mid as [|[key variants] mid IH];
    intros pre self s Hreg Hnd Hrefs Hrun.
  { injection Hrun as <- _; exists []; now rewrite app_nil_r. }
  destruct (ask_keys_appends _ _ _ _ _ Hrun) as (Hq' & added & Hc' & Hi').
  simpl app in Hreg.
  assert (Hnd0 := Hnd); rewrite Hreg in Hnd0.
  unfold keys_of in Hnd0; rewrite map_app in Hnd0; simpl in Hnd0.
  assert (Hsame : which_question key self' = which_question key self).
  { apply (which_question_later_answers pre (mid ++ post) key variants
             self self' added); trivial.
    intros k Hin Hk; apply Hi' in Hin.
    apply (NoDup_app_apart _ _ k Hnd0 Hk).
    destruct Hin as [<-|Hin]; [now left|right].
    rewrite map_app; apply in_or_app; now left. }
  assert (Hmid : forall k, In k (keys_of mid) -> k <> key).
  { intros k Hin ->.
    apply NoDup_app_remove_l in Hnd0; inversion Hnd0 as [|? ? Hout _]; subst.
    apply Hout; rewrite map_app; apply in_or_app; now left. }
  assert (Hpre : questions self =
                 ((pre ++ [(key, variants)]) ++ mid ++ post)%list)
    by (rewrite Hreg, <- app_assoc; reflexivity).
  simpl in Hrun.
  apply bind_ret_inv in Hrun as (question & Hw & Hrun).
  simpl keys_of; simpl filter; unfold resolves at 1; rewrite Hsame, Hw.
  destruct question as [q|].
  - destruct (mem key (choices self)) eqn:Hk; simpl in Hrun |- *.
    + exact (IH (pre ++ [(key, variants)])%list self s Hpre Hnd Hrefs Hrun).
    + apply bind_ret_inv in Hrun as ([[ok self1] s1] & Hp & Hrun).
      destruct ok; simpl in Hrun; [|discriminate].
      apply prompt_ret_inv in Hp as (Hq1 & Hans).
      destruct (Hans eq_refl) as (answer & ->).
      destruct (IH (pre ++ [(key, variants)])%list
                  (set_choice key answer self) s1)
        as (added1 & Hc1 & Hk1); trivial.
      exists ((key, answer) :: added1); split.
      * rewrite Hc1; simpl; rewrite (setitem_fresh _ _ _ Hk).
        now rewrite <- app_assoc.
      * simpl; f_equal; rewrite Hk1.
        apply filter_ext_in; intros k Hin; f_equal; f_equal.
        simpl; rewrite (setitem_fresh _ _ _ Hk).
        apply mem_app_other; simpl.
        intros [E|[]]; now apply (Hmid k Hin).
  - simpl.
    exact (IH (pre ++ [(key, variants)])%list self s Hpre Hnd Hrefs Hrun).
Qed.

(** X6, the keys a completed pass leaves answered.  With distinct registry
    keys and conditions that name only earlier keys, a pass of
    [ask_questions] that ends without a back step has appended, in
    registration order, one answer for every key that resolves to a variant
    in the state reached and had no answer before; started without answers
    it leaves exactly the resolving keys answered, in registration order. *)
Theorem ask_questions_records_resolved (self : Questionnaire) (s : script)
    (self' : Questionnaire) (rest : script) :
  NoDup (keys_of (questions self)) ->
  refs_earlier [] (questions self) = true ->
  ask_questions self s = Ret (true, self', rest) ->
  keys_of (choices self') =
    (keys_of (choices self) ++
     filter (fun k => resolves k self' && negb (mem k (choices self)))
            (keys_of (questions self)))%list /\
  (choices self = [] ->
   keys_of (choices self') =
     filter (fun k => resolves k self') (keys_of (questions self))).
Proof.
  unfold ask_questions; intros Hnd Hrefs Hrun.
  destruct (ask_keys_recorded (questions self) [] [] self s self' rest)
    as (added & Hc & Hk); trivial; [now rewrite app_nil_r|].
  assert (E : keys_of (choices self') =
              (keys_of (choices self) ++
               filter (fun k => resolves k self'
                                && negb (mem k (choices self)))
                      (keys_of (questions self)))%list).
  { rewrite Hc; unfold keys_of at 1; rewrite map_app.
    fold (keys_of added); now rewrite Hk. }
  split; [exact E|].
  intros Hempty; rewrite E, Hempty; simpl.
  apply filter_ext; intros k; apply andb_true_r.
Qed.

Lemma ask_questions_records_resolved_witness :
  keys_of (choices answered) =
  filter (fun k => resolves k answered) (keys_of (questions activities)).
Proof.
  refine (proj2 (ask_questions_records_resolved activities
                   [Choose 2; Choose 0; Choose 2; Choose 3]%nat answered []
                   _ _ _) _).
  - repeat constructor; simpl; intuition discriminate.
  - reflexivity.
  - reflexivity.
  - reflexivity.
Defined.

(** ** Back navigation and the next pass *)

Lemma state_eq (a b : Questionnaire) :
  questions a = questions b -> choices a = choices b -> a = b.
Proof. destruct a, b; simpl; now intros -> ->. Qed.

Lemma visited_cons (key : string) (keys : list string)
    (self : Questionnaire) :
  visited (key :: keys) self <-> skipped self key /\ visited keys self.
Proof.
  unfold visited, skipped; split.
  - intros H.
    destruct (which_question key self) as [[q|]| |] eqn:Hw;
      try (specialize (H []); cbn [ask_keys] in H; rewrite Hw in H;
           discriminate).
    + destruct (mem key (choices self)) eqn:Hk.
      * split; [right; eauto|].
        intros s; specialize (H s); cbn [ask_keys] in H.
        now rewrite Hw, Hk in H.
      * specialize (H []); cbn [ask_keys] in H.
        rewrite Hw, Hk in H; cbn [bind negb] in H.
        apply bind_ret_inv in H as ([[ok self1] s1] & Hp & _).
        apply prompt_consumes in Hp; simpl in Hp; lia.
    + split; [now left|].
      intros s; specialize (H s); cbn [ask_keys] in H.
      now rewrite Hw in H.
  - intros [[Hw|[[q Hw] Hk]] H] s; cbn [ask_keys]; rewrite Hw; cbn [bind];
      [|rewrite Hk]; apply H.
Qed.

Lemma visited_Forall (keys : list string) (self : Questionnaire) :
  visited keys self <-> Forall (skipped self) keys.
Proof.
  induction keys as [|key keys IH].
  - split; [constructor|intros _ s; reflexivity].
  - rewrite visited_cons, IH; split.
    + intros [H1 H2]; now constructor.
    + intros H; now inversion H.
Qed.

Lemma visited_app (keys1 keys2 : list string) (self : Questionnaire) :
  visited keys1 self -> visited keys2 self -> visited (keys1 ++ keys2) self.
Proof.
  rewrite !visited_Forall; intros H1 H2; apply Forall_app; now split.
Qed.

(** A pass that stands before [key], which has no answer and resolves to a
    variant, asks [key] first. *)
Lemma asks_first_intro (before after : list (string * list Question))
    (key : string) (variants : list Question) (q : Question)
    (self : Questionnaire) :
  questions self = (before ++ (key, variants) :: after)%list ->
  visited (keys_of before) self ->
  mem key (choices self) = false ->
  which_question key self = Ret (Some q) ->
  asks_first key self.
Proof.
  intros Hreg Hv Hk Hw; exists before, variants, after, q.
  repeat apply conj; trivial.
  intros s; unfold ask_questions; rewrite Hreg.
  unfold keys_of at 1; rewrite map_app; fold (keys_of before); simpl map.
  rewrite ask_keys_app, (Hv s); cbn [bind negb].
  now apply ask_keys_prompts.
Qed.

(** Answers recorded for keys that are not registered in [pre] leave a pass
    over [pre] without a prompt. *)
Lemma visited_later_answers (pre post : list (string * list Question))
    (self self' : Questionnaire) (added : list (string * value)) :
  questions self = (pre ++ post)%list ->
  NoDup (keys_of (questions self)) ->
  refs_earlier [] (questions self) = true ->
  questions self' = questions self ->
  choices self' = (choices self ++ added)%list ->
  (forall k, In k (keys_of added) -> ~ In k (keys_of pre)) ->
  visited (keys_of pre) self -> visited (keys_of pre) self'.
Proof.
  intros Hreg Hnd Hrefs Hq Hc Hlater.
  rewrite !visited_Forall, !Forall_forall; intros H k Hk.
  assert (Hin := Hk); unfold keys_of in Hin; apply in_map_iff in Hin
    as ([k' variants] & E & Hin); simpl in E; subst k'.
  apply in_split in Hin as (pre1 & pre2 & Hpre).
  assert (Hw : which_question k self' = which_question k self).
  { apply (which_question_later_answers pre1 (pre2 ++ post) k variants
             self self' added); trivial.
    - rewrite Hreg, Hpre, <- app_assoc; reflexivity.
    - intros x Hx Hx1; apply (Hlater x Hx).
      rewrite Hpre; unfold keys_of; rewrite map_app.
      apply in_or_app; now left. }
  assert (Hm : mem k (choices self') = mem k (choices self)).
  { rewrite Hc; apply mem_app_other.
    intros Hx; exact (Hlater k Hx Hk). }
  unfold skipped; rewrite Hw, Hm; exact (H k Hk).
Qed.

Lemma asked_in_turn_nil (registry : list (string * list Question)) :
  asked_in_turn registry [].
Proof. intros [|x earlier] key v later E; discriminate. Qed.

Lemma asked_in_turn_prefix (registry : list (string * list Question))
    (kept dropped : list (string * value)) :
  asked_in_turn registry (kept ++ dropped) -> asked_in_turn registry kept.
Proof.
  intros H earlier key v later E.
  apply (H earlier key v (later ++ dropped)%list).
  rewrite E, <- app_assoc; reflexivity.
Qed.

Lemma asked_in_turn_removelast (registry : list (string * list Question))
    (answers : list (string * value)) :
  asked_in_turn registry answers ->
  asked_in_turn registry (removelast answers).
Proof.
  destruct answers as [|x answers]; trivial.
  destruct (@exists_last _ (x :: answers)) as (kept & y & ->);
    [discriminate|].
  rewrite removelast_last; apply asked_in_turn_prefix.
Qed.

Lemma asked_in_turn_snoc (key : string) (v : value) (self : Questionnaire) :
  asks_first key self ->
  asked_in_turn (questions self) (choices self) ->
  asked_in_turn (questions self) (choices self ++ [(key, v)]).
Proof.
  intros Hfirst Hturn earlier k v' later E.
  destruct later as [|x later].
  - apply app_inj_tail in E as [E [= <- <-]]; rewrite <- E.
    now destruct self.
  - destruct (@exists_last _ (x :: later)) as (later' & y & El);
      [discriminate|].
    rewrite El, app_comm_cons, app_assoc in E.
    apply app_inj_tail in E as [E _].
    exact (Hturn earlier k v' later' E).
Qed.

(** What a back step in [prompt] leaves of the recorded answers, for a key
    that had none. *)
Lemma prompt_back_choices (key : string) (options : list string)
    (prompt_ : string) (multiple : bool) (indicator : string)
    (self : Questionnaire) (s : script)
    (self' : Questionnaire) (rest : script) :
  mem key (choices self) = false ->
  prompt key options prompt_ multiple indicator self s =
    Ret (false, self', rest) ->
  choices self' = choices self \/ choices self' = removelast (choices self).
Proof.
  intros Hk Hp; unfold prompt in Hp.
  apply bind_ret_inv in Hp as (shown & _ & Hp).
  apply bind_ret_inv in Hp as ([[answer i] rest'] & _ & Hp).
  destruct (go_back_after_append key answer self Hk) as [G0 G1].
  destruct (i <? 0); [|discriminate].
  rewrite rewind_written in Hp; simpl in Hp; injection Hp as <- _.
  destruct (multiple && truthy answer); auto.
Qed.

(** Through a pass the recorded answers stay asked in turn, and a pass that
    runs to the end of a stretch of the registry has visited it. *)
Lemma ask_keys_in_turn (mid pre post : list (string * list Question))
    (self : Questionnaire) (s : script)
    (ok : bool) (self' : Questionnaire) (rest : script) :
  questions self = (pre ++ mid ++ post)%list ->
  NoDup (keys_of (questions self)) ->
  refs_earlier [] (questions self) = true ->
  asked_in_turn (questions self) (choices self) ->
  visited (keys_of pre) self ->
  ask_keys (keys_of mid) self s = Ret (ok, self', rest) ->
  asked_in_turn (questions self) (choices self') /\
  (ok = true -> visited (keys_of (pre ++ mid)) self').
Proof.
  revert pre self s; induction mid as [|[key variants] mid IH];
    intros pre self s Hreg Hnd Hrefs Hturn Hv Hrun.
  { injection Hrun as <- <- _; rewrite app_nil_r; auto. }
  simpl app in Hreg.
  assert (Hnd0 := Hnd); rewrite Hreg in Hnd0.
  unfold keys_of in Hnd0; rewrite map_app in Hnd0; simpl in Hnd0.
  assert (Hkey : ~ In key (keys_of pre)).
  { apply NoDup_remove_2 in Hnd0; intros Hin; apply Hnd0.
    apply in_or_app; now left. }
  assert (Hpre : questions self =
                 ((pre ++ [(key, variants)]) ++ mid ++ post)%list)
    by (rewrite Hreg, <- app_assoc; reflexivity).
  assert (Hkeys : keys_of (pre ++ (key, variants) :: mid) =
                  keys_of ((pre ++ [(key, variants)]) ++ mid))
    by (rewrite <- app_assoc; reflexivity).
  assert (Hstep : forall st, visited (keys_of pre) st -> skipped st key ->
                             visited (keys_of (pre ++ [(key, variants)])) st).
  { intros st H1 H2; unfold keys_of; rewrite map_app.
    apply visited_app; trivial.
    apply visited_cons; split; trivial; intros s'; reflexivity. }
  simpl keys_of in Hrun; cbn [ask_keys] in Hrun.
  apply bind_ret_inv in Hrun as (question & Hw & Hrun).
  rewrite Hkeys.
  destruct question as [q|].
  - destruct (mem key (choices self)) eqn:Hk; simpl in Hrun.
    + apply (IH (pre ++ [(key, variants)])%list self s); trivial.
      apply Hstep; trivial; right; eauto.
    + apply bind_ret_inv in Hrun as ([[ok1 self1] s1] & Hp & Hrun).
      assert (Hfirst : asks_first key self)
        by exact (asks_first_intro pre (mid ++ post) key variants q self
                    Hreg Hv Hk Hw).
      destruct ok1; simpl in Hrun.
      * apply prompt_ret_inv in Hp as (Hq1 & Hans).
        destruct (Hans eq_refl) as (answer & ->).
        assert (Hc1 : choices (set_choice key answer self) =
                      (choices self ++ [(key, answer)])%list)
          by (simpl; now rewrite (setitem_fresh _ _ _ Hk)).
        assert (Hlater : forall k, In k (keys_of [(key, answer)]) ->
                                   ~ In k (keys_of pre)).
        { intros k [<-|[]]; trivial. }
        apply (IH (pre ++ [(key, variants)])%list
                 (set_choice key answer self) s1); trivial.
        -- simpl questions; rewrite Hc1; now apply asked_in_turn_snoc.
        -- apply Hstep.
           ++ apply (visited_later_answers pre ((key, variants) :: mid ++ post)
                       self _ [(key, answer)]); trivial.
           ++ right; split.
              ** exists q; rewrite <- Hw.
                 apply (which_question_later_answers pre (mid ++ post) key
                          variants self _ [(key, answer)]); trivial.
              ** unfold mem; simpl; now rewrite assoc_setitem.
      * injection Hrun as <- <- _; split; [|discriminate].
        apply prompt_back_choices in Hp as [-> | ->]; trivial.
        now apply asked_in_turn_removelast.
  - apply (IH (pre ++ [(key, variants)])%list self s); trivial.
    apply Hstep; trivial; now left.
Qed.

(** At the start of every pass of a run the recorded answers are asked in
    turn. *)
Lemma restarts_in_turn (self : Questionnaire) (s : script)
    (self' : Questionnaire) (s' : script) :
  restarts self s self' s' ->
  NoDup (keys_of (questions self)) ->
  refs_earlier [] (questions self) = true ->
  asked_in_turn (questions self) (choices self) ->
  questions self' = questions self /\
  asked_in_turn (questions self) (choices self').
Proof.
  induction 1 as [self s|self s self1 s1 self2 s2 Hpass _ IH];
    intros Hnd Hrefs Hturn; [auto|].
  assert (Hq := ask_keys_questions _ _ _ _ _ _ Hpass).
  destruct (ask_keys_in_turn (questions self) [] [] self s false self1 s1)
    as [Hturn1 _]; trivial; try (simpl; now rewrite app_nil_r);
    try (intros s'; reflexivity).
  rewrite Hq in IH; destruct IH as [Hq2 Hturn2]; auto.
Qed.

(** C2 as amended, back navigation in [prompt] for a key that has no answer
    yet (the only keys a pass prompts for).  The call returns [False] and
    leaves the key without answer.  A single-select prompt, and a
    multi-select prompt left with no selection, remove exactly the last
    recorded answer; a multi-select prompt left with at least one selection
    leaves [choices] as it was.  With distinct keys in [choices] the removed
    key has no answer afterwards.  The next pass prompts again: when the
    prompt was reached in a run (through passes that ended on back steps,
    then a pass that got to [key] and found a variant for it), with distinct
    registry keys and conditions that name only earlier keys, a pass started
    from the state the back step leaves skips the keys registered before the
    removed key and prompts for the removed key first; when no answer was
    removed it prompts for [key] itself. *)
Theorem prompt_back_navigation (key : string) (options : list string)
    (prompt_ : string) (multiple : bool) (indicator title : string)
    (self : Questionnaire) (s : script)
    (answer : value) (i : Z) (rest : script) :
  questions self <> [] ->
  mem key (choices self) = false ->
  _pick multiple options title indicator s = Ret ((answer, i), rest) ->
  i < 0 ->
  exists self',
    prompt key options prompt_ multiple indicator self s =
      Ret (false, self', rest) /\
    questions self' = questions self /\
    mem key (choices self') = false /\
    (multiple = false -> choices self' = removelast (choices self)) /\
    (multiple = true -> answer = VList [] ->
     choices self' = removelast (choices self)) /\
    (multiple = true -> forall o picked, answer = VList (o :: picked) ->
     choices self' = choices self) /\
    (multiple = true -> exists picked, answer = VList picked) /\
    (forall kept k v,
        NoDup (keys_of (choices self)) ->
        choices self = (kept ++ [(k, v)])%list ->
        removelast (choices self) = kept /\ mem k kept = false) /\
    (forall s_root self0 s0 before variants after q,
        NoDup (keys_of (questions self)) ->
        refs_earlier [] (questions self) = true ->
        restarts {| questions := questions self; choices := [] |} s_root
                 self0 s0 ->
        questions self = (before ++ (key, variants) :: after)%list ->
        ask_keys (keys_of before) self0 s0 = Ret (true, self, s) ->
        which_question key self = Ret (Some q) ->
        exists asked,
          ((asked = key /\ choices self' = choices self) \/
           (exists v, choices self = (choices self' ++ [(asked, v)])%list)) /\
          asks_first asked self').
Proof.
  intros Hq Hk Hp Hi.
  destruct (go_back_after_append key answer self Hk) as [G0 G1].
  pose proof (_pick_back _ _ _ _ _ _ _ _ Hp Hi) as Hans.
  eexists; split; [eapply prompt_went_back; eauto|].
  split; [reflexivity|].
  assert (Hc : choices (go_back (if multiple && truthy answer then 0 else 1)
                          (set_choice key answer self)) =
               if multiple && truthy answer then choices self
               else removelast (choices self)).
  { now destruct (multiple && truthy answer). }
  repeat apply conj.
  - rewrite Hc.
    destruct (multiple && truthy answer); auto using mem_removelast.
  - rewrite Hc; now intros ->.
  - rewrite Hc; now intros -> ->.
  - rewrite Hc; now intros -> o picked ->.
  - now intros ->.
  - intros kept k v Hnd E; rewrite E in *; now apply removelast_last_key.
  - intros s_root self0 s0 before variants after q Hnd Hrefs Hrun Hreg Hpass
      Hw.
    destruct (restarts_in_turn _ _ _ _ Hrun Hnd Hrefs
                (asked_in_turn_nil _)) as [Hq0 Hturn0]; simpl in Hq0, Hturn0.
    destruct (ask_keys_in_turn before [] ((key, variants) :: after)
                self0 s0 true self s) as [Hturn Hv]; trivial;
      try (rewrite Hq0; trivial).
    { intros s'; reflexivity. }
    rewrite Hq0 in Hturn; specialize (Hv eq_refl); simpl app in Hv.
    assert (Hfirst : asks_first key self)
      by exact (asks_first_intro before after key variants q self
                  Hreg Hv Hk Hw).
    remember (go_back (if multiple && truthy answer then 0 else 1)
                (set_choice key answer self)) as self' eqn:Hself'.
    assert (Hqs : questions self' = questions self)
      by (subst self'; reflexivity).
    clear Hself' G0 G1.
    assert (Hsame : choices self' = choices self -> self' = self)
      by (intros E; now apply state_eq).
    destruct (multiple && truthy answer).
    + exists key; rewrite (Hsame Hc); auto.
    + destruct (choices self) as [|x answers] eqn:Hcs.
      * exists key; rewrite (Hsame Hc); auto.
      * destruct (@exists_last _ (x :: answers)) as (kept & [k v] & E);
          [discriminate|].
        rewrite E in *; rewrite removelast_last in Hc.
        exists k; split; [right; exists v; now rewrite Hc|].
        replace self' with {| questions := questions self; choices := kept |}
          by (symmetry; now apply state_eq).
        exact (Hturn kept k v [] eq_refl).
Qed.

Lemma prompt_back_navigation_witness :
  exists self' asked,
    prompt "activities" ["eat granola"; "get dressed"; "go to work"] "" true
      "=>" saturday_morning [GoBack] = Ret (false, self', []) /\
    choices self' = [("day", VStr "saturday")] /\
    ((asked = "activities" /\ choices self' = choices saturday_morning) \/
     (exists v,
         choices saturday_morning = (choices self' ++ [(asked, v)])%list)) /\
    asks_first asked self'.
Proof.
  destruct (prompt_back_navigation "activities"
              ["eat granola"; "get dressed"; "go to work"] "" true "=>" ""
              saturday_morning [GoBack] (VList []) (-1) [])
    as (self' & Hp & _ & _ & _ & Hc & _ & _ & _ & Hnext).
  - discriminate.
  - reflexivity.
  - reflexivity.
  - lia.
  - destruct (Hnext [Choose 2; Choose 0; GoBack]%nat activities
                [Choose 2; Choose 0; GoBack]%nat
                [("day", [day_question]); ("time", [time_question])]
                activities_variants []
                (nth 1 activities_variants day_question))
      as (asked & Hasked & Hfirst).
    + repeat constructor; simpl; intuition discriminate.
    + reflexivity.
    + apply restarts_here.
    + reflexivity.
    + reflexivity.
    + reflexivity.
    + exists self', asked; repeat apply conj; trivial.
      exact (Hc eq_refl eq_refl).
Defined.

(** C2 as stated fails for a key that already has an answer: the tentative
    [None] overwrites the answer in place, so a single-select back step on
    [day] drops two recorded answers and leaves [day] recorded as [None]. *)
Lemma prompt_back_answered_key :
  exists self',
    prompt "day" ["monday"; "friday"; "saturday"] "" false "=>"
      three_answers [GoBack] = Ret (false, self', []) /\
    choices self' = [("day", VNone)] /\
    choices self' <> removelast (choices three_answers).
Proof.
  eexists; repeat split; discriminate.
Qed.

(** ** Conditions without an operators entry *)

Lemma get_operator_eq (v a : value) :
  get_operator (OpSym "==") v a = Ret (VBool (py_eq v a)).
Proof. reflexivity. Qed.

Lemma Condition_init_default (keys : seq_obj string) (vals : seq_obj value) :
  let d := {| d_keys := Some keys; d_vals := Some vals;
              d_operators := None |} in
  (is_list keys && is_list vals = true ->
   len vals = len keys ->
   Condition_init d =
   Ret {| _keys := items keys; _vals := items vals;
          _operators := repeat (OpSym "==") (len keys) |}) /\
  (sized keys = false -> Condition_init d = Exc TypeError) /\
  (sized keys = true -> is_list keys && is_list vals = false ->
   Condition_init d = Exc (AssertionError msg_lists)) /\
  (is_list keys && is_list vals = true ->
   len vals <> len keys ->
   Condition_init d = Exc (AssertionError msg_length)).
Proof.
  intros d; subst d.
  destruct (sized keys) eqn:Hsized.
  - pose proof (Condition_init_accepts keys vals None Hsized) as Hacc.
    destruct (Condition_init_rejects keys vals None Hsized) as (R1 & R2 & _).
    unfold all_lists, same_length, operators_valid, effective_operators in *.
    simpl in *; unfold len in *; simpl in *.
    rewrite repeat_length, Nat.eqb_refl, default_operators_valid in *.
    rewrite !andb_true_r in *.
    repeat apply conj.
    + intros Hl He; apply Hacc; trivial; now apply Nat.eqb_eq.
    + discriminate.
    + intros _; exact R1.
    + intros Hl He; apply R2; trivial; now apply Nat.eqb_neq.
  - destruct keys; try discriminate; simpl.
    repeat apply conj; trivial; discriminate.
Qed.

Lemma check_triples_default (answers : list (string * value))
    (ks : list string) (vs : list value) (n : nat) :
  (List.length ks <= n)%nat ->
  let r := check_triples (zip3 ks vs (repeat (OpSym "==") n)) answers in
  (r = Ret true <-> Forall (pair_equal answers) (combine ks vs)) /\
  (r = Ret true \/ r = Ret false \/
   exists k, In k ks /\ assoc k answers = None /\ r = Exc (KeyError k)).
Proof.
  revert vs n; induction ks as [|k ks IH]; intros vs n Hn; simpl.
  - split; [split; [constructor|trivial]|now left].
  - destruct vs as [|v vs]; simpl;
      [split; [split; [constructor|trivial]|now left]|].
    destruct n as [|n]; simpl in Hn; [lia|].
    cbn [repeat zip3]; rewrite check_triples_cons; cbn [in_OPERATORS bind].
    destruct (IH vs n ltac:(lia)) as [Hiff Hcases].
    unfold lookup.
    destruct (assoc k answers) as [a|] eqn:Ha; cbn [bind].
    + rewrite get_operator_eq; cbn [bind truthy].
      destruct (py_eq v a) eqn:He; cbn [negb].
      * split.
        -- rewrite Hiff; split; intros H.
           ++ constructor; [exists a; auto|trivial].
           ++ now inversion H.
        -- destruct Hcases as [H|[H|(k' & Hin & Hk & H)]]; auto.
           right; right; exists k'; auto.
      * split; [|auto].
        split; [discriminate|].
        intros H; inversion H as [|? ? (a' & Ha' & He') _]; subst.
        simpl in Ha', He'; congruence.
    + split.
      * split; [discriminate|].
        intros H; inversion H as [|? ? (a' & Ha' & _) _]; subst.
        simpl in Ha'; congruence.
      * right; right; exists k; auto.
Qed.

(** X7, construction without an operators entry.  For a dict that holds
    keys and values but no operators, [Condition.__init__] first computes
    [len(keys)] to supply one ["=="] per key: keys that have no length make
    it raise [TypeError] before any assertion.  With sized keys it succeeds
    exactly when keys and values are lists of the same length; otherwise it
    fails on the list check or on the length check, never on the operator
    check. *)
Theorem Condition_init_without_operators (keys : seq_obj string)
    (vals : seq_obj value) :
  let d := {| d_keys := Some keys; d_vals := Some vals;
              d_operators := None |} in
  (Condition_init d =
     Ret {| _keys := items keys; _vals := items vals;
            _operators := repeat (OpSym "==") (len keys) |} <->
   is_list keys = true /\ is_list vals = true /\ len vals = len keys) /\
  (Condition_init d = Exc TypeError <-> sized keys = false) /\
  (Condition_init d = Exc (AssertionError msg_lists) <->
   sized keys = true /\ is_list keys && is_list vals = false) /\
  (Condition_init d = Exc (AssertionError msg_length) <->
   is_list keys && is_list vals = true /\ len vals <> len keys) /\
  Condition_init d <> Exc (AssertionError msg_operators).
Proof.
  intros d; subst d.
  destruct (Condition_init_default keys vals) as (Hok & Ht & Hl & Hn).
  destruct (sized keys) eqn:Hsized.
  - destruct (is_list keys && is_list vals) eqn:El.
    + apply andb_prop in El as [Ek Ev].
      destruct (Nat.eq_dec (len vals) (len keys)) as [E|E].
      * rewrite Hok by trivial.
        repeat split; trivial; try discriminate;
          intros H; decompose [and] H; congruence.
      * rewrite (Hn eq_refl E).
        repeat split; trivial; try discriminate;
          intros H; decompose [and] H; congruence.
    + rewrite Hl by trivial.
      repeat split; trivial; try discriminate;
        intros H; decompose [and] H; try congruence.
      rewrite H0, H2 in El; discriminate.
  - rewrite Ht by trivial.
    destruct keys; try discriminate; simpl.
    repeat split; trivial; try discriminate;
      intros H; decompose [and] H; congruence.
Qed.

Lemma Condition_init_without_operators_witness :
  Condition_init night_dict = Ret night_condition.
Proof.
  apply (proj2 (proj1 (Condition_init_without_operators (PyList ["time"])
                         (PyList [VStr "night"])))).
  repeat split.
Defined.

Lemma Condition_init_default_inv (ks : list string) (vs : list value)
    (c : Condition) :
  Condition_init {| d_keys := Some (PyList ks); d_vals := Some (PyList vs);
                    d_operators := None |} = Ret c ->
  c = {| _keys := ks; _vals := vs;
         _operators := repeat (OpSym "==") (List.length ks) |} /\
  List.length vs = List.length ks.
Proof.
  destruct (Condition_init_default (PyList ks) (PyList vs))
    as (Hok & _ & _ & Hn).
  destruct (Nat.eq_dec (List.length vs) (List.length ks)) as [E|E].
  - rewrite (Hok eq_refl E); intros [= <-]; auto.
  - rewrite (Hn eq_refl E); discriminate.
Qed.

(** X8, evaluation of an equality condition.  A [Condition] built from
    lists of keys and values without operators evaluates to [True] exactly
    when every key has an answer equal to its value; it otherwise returns
    [False], or raises the [KeyError] of a key of the condition that has no
    answer; the comparison itself never raises. *)
Theorem equality_condition_evaluation (ks : list string) (vs : list value)
    (c : Condition) (self : Questionnaire) :
  Condition_init {| d_keys := Some (PyList ks); d_vals := Some (PyList vs);
                    d_operators := None |} = Ret c ->
  let r := check_condition (Some c) self in
  (r = Ret true <-> Forall (pair_equal (choices self)) (combine ks vs)) /\
  (r = Ret true \/ r = Ret false \/
   exists k, In k ks /\ mem k (choices self) = false /\
             r = Exc (KeyError k)).
Proof.
  intros Hc; apply Condition_init_default_inv in Hc as [-> _]; simpl.
  destruct (check_triples_default (choices self) ks vs (List.length ks)
              (le_n _)) as [Hiff Hcases].
  split; [exact Hiff|].
  destruct Hcases as [H|[H|(k & Hin & Hk & H)]]; auto.
  right; right; exists k; repeat split; trivial.
  now apply mem_false_assoc.
Qed.

Lemma equality_condition_evaluation_witness :
  check_condition (Some night_condition) three_answers = Ret true <->
  Forall (pair_equal (choices three_answers)) [("time", VStr "night")].
Proof.
  refine (proj1 (equality_condition_evaluation ["time"] [VStr "night"]
                   night_condition three_answers _)).
  reflexivity.
Defined.

(** ** Failures of the constructors *)

Lemma Condition_init_exc (keys : seq_obj string) (vals : seq_obj value)
    (ops : option (seq_obj operator)) (e : exn) :
  Condition_init {| d_keys := Some keys; d_vals := Some vals;
                    d_operators := ops |} = Exc e ->
  (exists msg, e = AssertionError msg /\
               In msg [msg_lists; msg_length; msg_operators]) \/
  (e = TypeError /\
   ((ops = None /\ keys = PyScalar) \/
    (exists o, ops = Some o /\ In OpUnhashable (items o)))).
Proof.
  destruct (checkable keys ops) eqn:Hc.
  - pose proof (Condition_init_accepts keys vals ops Hc) as Hacc.
    destruct (Condition_init_rejects keys vals ops Hc) as (R1 & R2 & R3).
    destruct (all_lists keys vals (effective_operators keys ops));
      [destruct (same_length keys vals (effective_operators keys ops));
       [destruct (operators_valid (effective_operators keys ops))|]|].
    + rewrite Hacc by trivial; discriminate.
    + rewrite R3 by trivial; intros [= <-]; left; eexists; split; simpl;
        eauto.
    + rewrite R2 by trivial; intros [= <-]; left; eexists; split; simpl;
        eauto.
    + rewrite R1 by trivial; intros [= <-]; left; eexists; split; simpl;
        eauto.
  - destruct ops as [o|]; simpl in Hc.
    + unfold Condition_init; simpl.
      destruct (is_list keys && is_list vals && is_list o); simpl;
        [|intros [= <-]; left; eexists; split; simpl; eauto].
      destruct ((len keys =? len keys)%nat && (len vals =? len keys)%nat
                && (len o =? len keys)%nat); simpl;
        [|intros [= <-]; left; eexists; split; simpl; eauto].
      destruct (all_check_operator (items o)) as [valid|e0|] eqn:Hv; simpl.
      * destruct valid; simpl; [discriminate|].
        intros [= <-]; left; eexists; split; simpl; eauto.
      * intros [= <-].
        apply all_check_operator_exc in Hv
          as (-> & before & after & E & _).
        right; split; trivial; right; exists o; split; trivial.
        rewrite E; apply in_or_app; right; now left.
      * now apply all_check_operator_no_wait in Hv.
    + destruct keys; try discriminate.
      rewrite Condition_init_unsized; intros [= <-]; auto.
Qed.

(** X9, how the constructors fail.  [Question.__init__] fails only for a
    dict that holds both keys and values, and only in two ways: with one of
    the three assertion failures of [Condition.__init__], or with the
    [TypeError] of Python itself, raised by [len(keys)] when the dict has no
    operators and its keys have no length, or by the membership test of
    [check_operator] on an operator that cannot be hashed.  The guard in
    [Question.__init__] keeps the [KeyError] away that [Condition.__init__]
    raises when it is handed a dict without keys, or with keys and without
    values. *)
Theorem Question_init_failures (key : string) (options : list string)
    (multiple : bool) (d : cond_dict) :
  (forall e,
      Question_init key options multiple d = Exc e ->
      ((exists msg, e = AssertionError msg /\
                    In msg [msg_lists; msg_length; msg_operators]) \/
       (e = TypeError /\
        ((d_operators d = None /\ d_keys d = Some PyScalar) \/
         (exists o, d_operators d = Some o /\
                    In OpUnhashable (items o))))) /\
      d_keys d <> None /\ d_vals d <> None) /\
  (d_keys d = None -> Condition_init d = Exc (KeyError "keys")) /\
  (d_keys d <> None -> d_vals d = None ->
   Condition_init d = Exc (KeyError "vals")).
Proof.
  repeat apply conj.
  - unfold Question_init; intros e.
    destruct d as [[keys|] [vals|] ops]; simpl; try discriminate.
    destruct (Condition_init _) as [c| |] eqn:Hc; simpl; try discriminate.
    intros [= <-]; split; [|split; discriminate].
    apply Condition_init_exc in Hc as [H|(-> & [[-> ->]|H])]; auto.
  - unfold Condition_init; now intros ->.
  - unfold Condition_init; destruct (d_keys d); [|contradiction].
    now intros _ ->.
Qed.

Lemma Question_init_failures_witness :
  Condition_init empty_dict = Exc (KeyError "keys") /\
  Question_init "time" ["morning"] false
    {| d_keys := Some PyScalar; d_vals := Some (PyList [VStr "friday"]);
       d_operators := None |} = Exc TypeError /\
  Some (@PyScalar string) <> None /\
  Some (PyList [VStr "friday"]) <> None.
Proof.
  split; [|split; [reflexivity|]].
  - apply (proj1 (proj2 (Question_init_failures "day" ["monday"] false
                           empty_dict))).
    reflexivity.
  - refine (proj2 (proj1 (Question_init_failures "time" ["morning"] false
                     {| d_keys := Some PyScalar;
                        d_vals := Some (PyList [VStr "friday"]);
                        d_operators := None |})
                     TypeError _)).
    reflexivity.
Defined.

(** ** Termination of [run] and a back step at the start *)

(** X10, [run] does not spin.  A pass never hands responses back, and a
    pass that ends on a back step has read at least one response; hence the
    loop of [run] starts no more passes than the script has responses, plus
    one: every larger bound on the number of passes gives the outcome of
    [run]. *)
Theorem run_reads_input (self : Questionnaire) (s : script) :
  (forall ok self' rest,
      ask_questions self s = Ret (ok, self', rest) ->
      (List.length rest <= List.length s)%nat /\
      (ok = false -> (List.length rest < List.length s)%nat)) /\
  (forall fuel,
      (List.length s < fuel)%nat ->
      run_passes fuel {| questions := questions self; choices := [] |} s =
      run self s).
Proof.
  split.
  - intros ok self' rest H; exact (ask_keys_consumes _ _ _ _ _ _ H).
  - intros fuel Hf; unfold run; apply run_passes_fuel; lia.
Qed.

Lemma run_reads_input_witness :
  run_passes 7 activities [Choose 2; Choose 0; GoBack; Choose 1; Choose 0] =
  run activities [Choose 2; Choose 0; GoBack; Choose 1; Choose 0].
Proof.
  apply (proj2 (run_reads_input activities
                  [Choose 2; Choose 0; GoBack; Choose 1; Choose 0]%nat) 7%nat).
  simpl; lia.
Defined.

Lemma _pick_go_back (multiple : bool) (options : list string)
    (title title' indicator : string) (s : script) :
  _pick multiple options title' indicator [] = Wait ->
  exists answer,
    _pick multiple options title indicator (GoBack :: s) =
      Ret ((answer, -1), s) /\
    truthy answer = false.
Proof.
  destruct multiple; [exists (VList []); split; reflexivity|].
  destruct options as [|option options]; [discriminate|].
  exists VNone; split; reflexivity.
Qed.

Lemma prompt_waits (key : string) (options : list string)
    (prompt_ : string) (multiple : bool) (indicator : string)
    (self : Questionnaire) :
  prompt key options prompt_ multiple indicator self [] = Wait ->
  exists title, _pick multiple options title indicator [] = Wait.
Proof.
  unfold prompt, show_choices.
  destruct (max_len (keys_of (questions self))); cbn [bind];
    [|discriminate].
  destruct (_pick multiple options _ indicator []) as [[[answer i] rest]| |]
    eqn:Hp; simpl; [|discriminate|intros _; eexists; exact Hp].
  apply _pick_consumes in Hp; simpl in Hp; lia.
Qed.

(** With no answer recorded, a pass that has to ask takes a back step as
    its first response and ends in the state it started from (the second
    case is a caller's callable that itself waits for the user). *)
Lemma ask_keys_back_at_start (keys : list string) (self : Questionnaire)
    (s : script) :
  choices self = [] ->
  ask_keys keys self [] = Wait ->
  ask_keys keys self (GoBack :: s) = Ret (false, self, s) \/
  (forall s', ask_keys keys self s' = Wait).
Proof.
  intros Hc; induction keys as [|key keys IH]; cbn [ask_keys];
    [discriminate|].
  destruct (which_question key self) as [[q|]| |] eqn:Hw; cbn [bind].
  - rewrite Hc; cbn [mem assoc negb].
    destruct (questions self) as [|entry registry] eqn:Hq.
    + unfold which_question, lookup in Hw; rewrite Hq in Hw; discriminate.
    + intros Hwait; left.
      assert (Hp0 : prompt key (_options q) "" (_multiple q) "=>" self []
                    = Wait).
      { destruct (prompt key (_options q) "" (_multiple q) "=>" self [])
          as [[[ok self'] rest]| |] eqn:Hp0; trivial.
        apply prompt_consumes in Hp0; simpl in Hp0; lia. }
      apply prompt_waits in Hp0 as [title' Hp0].
      destruct (_pick_go_back (_multiple q) (_options q) "" title' "=>" s Hp0)
        as (answer & Hp & Ht).
      assert (Hne : questions self <> []) by (rewrite Hq; discriminate).
      rewrite (prompt_went_back key (_options q) "" (_multiple q) "=>" ""
                 self (GoBack :: s) answer (-1) s Hne Hp) by lia.
      simpl; rewrite Ht, andb_false_r.
      destruct self as [qs cs]; simpl in *; subst cs.
      reflexivity.
  - intros H; destruct (IH H) as [H'|H']; [now left|right].
    exact H'.
  - discriminate.
  - intros _; now right.
Qed.

(** X11, going back at the first question.  When the questionnaire has a
    question to ask first (run on no input, it waits for the user), a back
    step given as the very first response changes nothing: [run] goes on as
    if the response had not been given. *)
Theorem run_back_at_start (self : Questionnaire) (s : script) :
  ask_questions {| questions := questions self; choices := [] |} [] = Wait ->
  run self (GoBack :: s) = run self s.
Proof.
  intros Hw; unfold run.
  unfold ask_questions in Hw; simpl in Hw.
  destruct (ask_keys_back_at_start
              (keys_of (questions self))
              {| questions := questions self; choices := [] |} s
              eq_refl Hw) as [H|H].
  - change (run_passes (S (List.length (GoBack :: s))) ?st (GoBack :: s))
      with (do (ok, self', rest) <- ask_questions st (GoBack :: s);
            if negb ok then run_passes (S (List.length s)) self' rest
            else Ret (choices self', rest)).
    unfold ask_questions at 1; simpl questions; rewrite H; reflexivity.
  - simpl; unfold ask_questions; simpl questions; now rewrite !H.
Qed.

Lemma run_back_at_start_witness :
  run activities [GoBack; Choose 2; Choose 1; Choose 0] =
  run activities [Choose 2; Choose 1; Choose 0].
Proof.
  apply (run_back_at_start activities [Choose 2; Choose 1; Choose 0]%nat).
  reflexivity.
Defined.

(** ** The registry that [add_question] builds *)

Lemma mem_existsb {A : Type} (k : string) (d : list (string * A)) :
  mem k d = existsb (String.eqb k) (keys_of d).
Proof.
  unfold mem; induction d as [|[k' a] d IH]; simpl; trivial.
  rewrite (String.eqb_sym k k').
  destruct (k' =? k)%string; simpl; trivial.
Qed.

Lemma variants_of_add_question (q : Question) (self : Questionnaire)
    (k : string) :
  variants_of k (fst (add_question q self)) =
  (variants_of k self ++ if (_key q =? k)%string then [q] else [])%list.
Proof.
  unfold variants_of; simpl.
  destruct (String.eqb_spec (_key q) k) as [<-|Hne].
  - now rewrite assoc_setdefault_append.
  - rewrite assoc_setdefault_append_other by congruence.
    now rewrite app_nil_r.
Qed.

Lemma register_all_cons (q : Question) (qs : list Question)
    (self : Questionnaire) :
  register_all (q :: qs) self = register_all qs (fst (add_question q self)).
Proof. reflexivity. Qed.

Lemma register_all_variants (qs : list Question) (self : Questionnaire)
    (k : string) :
  variants_of k (register_all qs self) =
  (variants_of k self ++ filter (fun q => (_key q =? k)%string) qs)%list.
Proof.
  revert self; induction qs as [|q qs IH]; intros self.
  - simpl; now rewrite app_nil_r.
  - rewrite register_all_cons, IH, variants_of_add_question.
    rewrite <- app_assoc; f_equal; simpl.
    now destruct (_key q =? k)%string.
Qed.

Lemma register_all_keys (qs : list Question) (self : Questionnaire) :
  keys_of (questions (register_all qs self)) =
  (keys_of (questions self)
   ++ first_keys (keys_of (questions self)) qs)%list.
Proof.
  revert self; induction qs as [|q qs IH]; intros self.
  - simpl; now rewrite app_nil_r.
  - rewrite register_all_cons, IH; simpl.
    rewrite keys_setdefault_append, <- mem_existsb.
    destruct (mem (_key q) (questions self)); trivial.
    now rewrite <- app_assoc.
Qed.

Lemma register_all_nodup (qs : list Question) (self : Questionnaire) :
  NoDup (keys_of (questions self)) ->
  NoDup (keys_of (questions (register_all qs self))).
Proof.
  revert self; induction qs as [|q qs IH]; intros self Hnd; trivial.
  rewrite register_all_cons; apply IH.
  now apply (add_question_nodup q self).
Qed.

Lemma register_all_choices (qs : list Question) (self : Questionnaire) :
  choices (register_all qs self) = choices self.
Proof.
  revert self; induction qs as [|q qs IH]; intros self; trivial.
  rewrite register_all_cons; now rewrite IH.
Qed.

(** X12, the registry after a series of [add_question] calls.  Adding the
    questions [qs] in order to a questionnaire leaves under every key its
    earlier variants followed by the questions of [qs] that carry that key,
    in the order added; the keys keep their order, new keys following in
    the order of their first question; the keys stay distinct and the
    recorded answers are untouched.  On a new questionnaire every question
    is therefore filed under its own key. *)
Theorem register_all_registry (qs : list Question) (self : Questionnaire) :
  (forall k,
      variants_of k (register_all qs self) =
      (variants_of k self
       ++ filter (fun q => (_key q =? k)%string) qs)%list) /\
  keys_of (questions (register_all qs self)) =
    (keys_of (questions self)
     ++ first_keys (keys_of (questions self)) qs)%list /\
  (NoDup (keys_of (questions self)) ->
   NoDup (keys_of (questions (register_all qs self)))) /\
  choices (register_all qs self) = choices self /\
  (forall k q,
      In q (variants_of k (register_all qs Questionnaire_init)) ->
      In q qs /\ _key q = k).
Proof.
  repeat apply conj.
  - intros k; apply register_all_variants.
  - apply register_all_keys.
  - apply register_all_nodup.
  - apply register_all_choices.
  - intros k q; rewrite register_all_variants; simpl.
    rewrite filter_In; intros [Hin Hk]; split; trivial.
    now apply String.eqb_eq.
Qed.

Lemma register_all_registry_witness :
  NoDup (keys_of (questions
    (register_all (day_question :: time_question :: activities_variants)
                  Questionnaire_init))).
Proof.
  apply (proj1 (proj2 (proj2 (register_all_registry
           (day_question :: time_question :: activities_variants)
           Questionnaire_init)))).
  constructor.
Defined.

(** ** What [run] returns *)

Lemma _pick_selection (multiple : bool) (options : list string)
    (title indicator : string) (s : script)
    (answer : value) (i : Z) (rest : script) :
  _pick multiple options title indicator s = Ret ((answer, i), rest) ->
  0 <= i ->
  if multiple
  then exists picked,
         answer = VList picked /\ (picked = ["all"] \/ incl picked options)
  else exists o, answer = VStr o /\ In o options.
Proof.
  unfold _pick, back_pick_multiple; destruct multiple; intros H Hi.
  - destruct (pick_loop_list _ _ _ _ _ _ _ _ _ _ H) as [picked ->].
    exists picked; split; trivial.
    apply pick_loop_picked in H
      as [[-> _]|(more & remaining & E & Hp & Ha & Hd)]; [now left|right].
    simpl in E; subst more; intros x Hx.
    assert (Hin : In x (["all"] ++ options ++ ["done..."])).
    { apply (Permutation_in x (Permutation_sym Hp)).
      apply in_or_app; now left. }
    simpl in Hin; destruct Hin as [<-|Hin]; [contradiction|].
    apply in_app_or in Hin as [Hin|[<-|[]]]; [trivial|contradiction].
  - apply back_pick_selected in H as (n & o & _ & Hn & ->); trivial.
    exists o; split; trivial; eapply nth_error_In; eauto.
Qed.

Lemma which_question_variant (key : string) (self : Questionnaire)
    (q : Question) :
  which_question key self = Ret (Some q) ->
  exists variants,
    assoc key (questions self) = Some variants /\ In q variants.
Proof.
  unfold which_question, lookup.
  destruct (assoc key (questions self)) as [variants|]; simpl;
    [|discriminate].
  intros H; apply first_satisfied_some in H as (before & after & -> & _).
  eexists; split; [reflexivity|].
  apply in_or_app; right; now left.
Qed.

Lemma Forall_removelast {A : Type} (P : A -> Prop) (l : list A) :
  Forall P l -> Forall P (removelast l).
Proof.
  intros H; rewrite <- firstn_pred_removelast.
  rewrite Forall_forall in *; intros x Hx; apply H.
  rewrite <- (firstn_skipn (List.length l - 1) l).
  apply in_or_app; now left.
Qed.

Lemma prompt_keeps_proper (key : string) (q : Question)
    (self : Questionnaire) (s : script)
    (ok : bool) (self' : Questionnaire) (rest : script) :
  which_question key self = Ret (Some q) ->
  mem key (choices self) = false ->
  answers_proper (questions self) (choices self) ->
  prompt key (_options q) "" (_multiple q) "=>" self s =
    Ret (ok, self', rest) ->
  answers_proper (questions self') (choices self').
Proof.
  intros Hw Hk Hproper Hp.
  destruct (which_question_variant _ _ _ Hw) as (variants & Ha & Hin).
  assert (Hne : questions self <> []).
  { intros E; rewrite E in Ha; discriminate. }
  destruct (prompt_ret_inv _ _ _ _ _ _ _ _ _ _ Hp) as [Hq _]; rewrite Hq.
  unfold prompt in Hp.
  apply bind_ret_inv in Hp as (shown & _ & Hp).
  apply bind_ret_inv in Hp as ([[answer i] rest'] & Hpick & Hp).
  destruct (go_back_after_append key answer self Hk) as [G0 G1].
  destruct (i <? 0) eqn:Hi.
  - rewrite rewind_written in Hp; simpl in Hp; injection Hp as _ <- _.
    destruct (_multiple q && truthy answer); [now rewrite G0|].
    rewrite G1; now apply Forall_removelast.
  - injection Hp as _ <- _; simpl.
    rewrite (setitem_fresh _ _ _ Hk).
    apply Forall_app; split; trivial.
    constructor; [|constructor].
    exists variants, q; simpl; repeat split; trivial.
    apply Z.ltb_ge in Hi.
    apply _pick_selection in Hpick; trivial.
Qed.

Lemma ask_keys_keeps_proper (keys : list string) (self : Questionnaire)
    (s : script) (ok : bool) (self' : Questionnaire) (rest : script) :
  answers_proper (questions self) (choices self) ->
  ask_keys keys self s = Ret (ok, self', rest) ->
  answers_proper (questions self') (choices self').
Proof.
  revert self s; induction keys as [|key keys IH]; intros self s Hproper;
    simpl.
  - now intros [= _ <- _].
  - intros H; apply bind_ret_inv in H as (question & Hw & H).
    destruct question as [q|]; [|exact (IH _ _ Hproper H)].
    destruct (mem key (choices self)) eqn:Hk; simpl in H;
      [exact (IH _ _ Hproper H)|].
    apply bind_ret_inv in H as ([[ok1 self1] s1] & Hp & H).
    apply (prompt_keeps_proper key q self s ok1 self1 s1 Hw Hk Hproper)
      in Hp.
    destruct ok1; simpl in H.
    + exact (IH _ _ Hp H).
    + now injection H as _ <- _.
Qed.

Lemma run_passes_keeps_proper (fuel : nat) (self : Questionnaire)
    (s : script) (answers : list (string * value)) (rest : script) :
  answers_proper (questions self) (choices self) ->
  run_passes fuel self s = Ret (answers, rest) ->
  answers_proper (questions self) answers.
Proof.
  revert self s; induction fuel as [|fuel IH]; intros self s Hproper; simpl;
    [discriminate|].
  intros H; apply bind_ret_inv in H as ([[ok self1] s1] & Hp & H).
  assert (Hq := ask_keys_questions _ _ _ _ _ _ Hp).
  apply (ask_keys_keeps_proper _ _ _ _ _ _ Hproper) in Hp.
  destruct ok; simpl in H.
  - injection H as <- _; now rewrite <- Hq.
  - rewrite <- Hq; exact (IH _ _ Hp H).
Qed.

(** X13, what [run] returns.  Every entry of the mapping [run] returns
    stands under a registered key and holds a selection made from a variant
    registered under that key: one of the variant's options for a single
    question, and for a multiple question a list of the variant's options
    or the one-element list with the "all" marker.  The [None] that a back
    step writes never reaches the result. *)
Theorem run_returns_selections (self : Questionnaire) (s : script)
    (answers : list (string * value)) (rest : script) :
  run self s = Ret (answers, rest) ->
  forall key v,
    In (key, v) answers ->
    exists variants q,
      assoc key (questions self) = Some variants /\ In q variants /\
      selection_of q v /\ v <> VNone.
Proof.
  unfold run; intros H key v Hin.
  apply run_passes_keeps_proper in H; [|constructor].
  unfold answers_proper in H; rewrite Forall_forall in H.
  destruct (H _ Hin) as (variants & q & Ha & Hq & Hsel); simpl in *.
  exists variants, q; repeat split; trivial.
  intros ->; unfold selection_of in Hsel.
  destruct (_multiple q); destruct Hsel as (x & E & _); discriminate.
Qed.

Lemma run_returns_selections_witness :
  exists variants q,
    assoc "time" (questions activities) = Some variants /\ In q variants /\
    selection_of q (VStr "night") /\ VStr "night" <> VNone.
Proof.
  apply (run_returns_selections activities
           [Choose 2; Choose 0; GoBack; Choose 1; Choose 2; Choose 3]%nat
           [("day", VStr "saturday"); ("time", VStr "night");
            ("activities", VList ["go to the cantina"])] []).
  - reflexivity.
  - right; now left.
Defined.

(** ** The text of [show_choices] *)











(** ** Operators of a constructed condition *)

Lemma accepted_callable (op : operator) :
  accepted op = true ->
  (exists s f, op = OpSym s /\ assoc s _OPERATORS = Some f /\
               forall x y, get_operator op x y = f x y) \/
  (exists f, op = OpFun 2 f /\ forall x y, get_operator op x y = f x y).
Proof.
  destruct op as [s|n f|f| |]; unfold accepted; try discriminate.
  - unfold mem; destruct (assoc s _OPERATORS) as [f|] eqn:Ha;
      [|discriminate].
    intros _; left; exists s, f; repeat split; trivial.
    intros x y; unfold get_operator; now rewrite Ha.
  - intros Hn; apply Nat.eqb_eq in Hn as ->.
    right; exists f; split; trivial.
Qed.

(** X15, what construction guarantees about operators.  Every operator of
    a [Condition] that came out of the constructor is a symbol of the
    operator table, evaluated through its table entry, or a callable that
    reports two arguments, called as it is: evaluation never tries to call
    an unknown symbol or a plain object. *)
Theorem constructed_operators_callable (d : cond_dict) (c : Condition) :
  Condition_init d = Ret c ->
  Forall (fun op =>
            (exists s f, op = OpSym s /\ assoc s _OPERATORS = Some f /\
                         forall x y, get_operator op x y = f x y) \/
            (exists f, op = OpFun 2 f /\
                       forall x y, get_operator op x y = f x y))
         (_operators c).
Proof.
  intros H; apply Condition_init_ret_inv in H
    as (ks & vs & _ & _ & _ & _ & _ & _ & Hops).
  rewrite forallb_forall in Hops; apply Forall_forall.
  intros op Hin; apply accepted_callable; auto.
Qed.

Lemma constructed_operators_callable_witness :
  Forall (fun op =>
            (exists s f, op = OpSym s /\ assoc s _OPERATORS = Some f /\
                         forall x y, get_operator op x y = f x y) \/
            (exists f, op = OpFun 2 f /\
                       forall x y, get_operator op x y = f x y))
         (_operators night_condition).
Proof.
  apply (constructed_operators_callable night_dict night_condition).
  reflexivity.
Defined.
